(** * The event based calculator of [openquake.calculators.event_based]

    A shallow embedding of the reduction engine of the event based
    calculator: [replace_eid], [build_ruptures], [get_events],
    [EventBasedCalculator.save_ruptures], [agg_dicts], [check_overflow],
    [from_sources] and [execute], followed by the properties that the
    design document states about them.

    Conventions.
    - Python integers are unbounded: they are modelled by [Z]; lengths
      are [nat] and are injected with [Z.of_nat] where they meet a [Z].
    - the calculator is modelled with the cells of the hazard curves as
      real numbers ([R]), that is with the exact arithmetic in which the
      design document states the laws of the update; the [float64]
      arithmetic of the code is modelled beside it ([bernoulli64],
      [update_array64], [hcurve_update64], [agg_hcurves64]) with the
      binary64 numbers of the kernel, and shows where rounding departs
      from the exact laws.
    - the values of the dictionary [eid2idx] are indices: the statements
      on [replace_eid] take them from 0 to 2^63 - 1, the range in which
      numpy keeps them as integers and the [U64] column [eid] stores them
      as they are.
    - a Python [dict] is a [gmap]; where the iteration order of a dict
      matters it is an association list.
    - an exception is a value of [exn]; a raising computation returns
      [Raise e] and drops the state (the run is aborted by it).
    - monitors, logging and the progress attributes ([nbytes], [gmdata])
      have no influence on what is modelled and are left out. *)

From Stdlib Require Import ZArith Lia Reals Lra.
From Stdlib Require Import Floats.PrimFloat.
From stdpp Require Import gmap strings list sorting.

Local Open Scope Z_scope.

(** ** Exceptions and the error monad *)

Inductive exn : Type :=
  | KeyError (dict : string)        (* the dictionary or dataset that lacks the key *)
  | AttributeError (attr : string)
  | UnpackError                     (* [ruptures] = ... on a dict that has not one value *)
  | BroadcastError                  (* numpy: operands could not be broadcast together *)
  | OverflowValueError (max_ : Z) (var : string) (num_ : Z)
      (* 'The event based calculator is restricted to %d %s, got %d' *)
  | GmfRowsError (two32 : Z)
      (* 'The gmf_data table has more than %d rows' *)
  | NoGMFsError
      (* 'No GMFs were generated, perhaps they were all below the
         minimum_intensity threshold' *)
  | EidMismatch (expected actual : list Z)   (* numpy.testing.assert_equal *)
  | GmfAssertion.                   (* assert oq.ground_motion_fields, 'must be True!' *)

Inductive res (A : Type) : Type :=
  | Ok (a : A)
  | Raise (e : exn).
Arguments Ok {A} a.
Arguments Raise {A} e.

#[global] Instance res_ret : MRet res := fun A a => Ok a.
#[global] Instance res_bind : MBind res := fun A B f m =>
  match m with Ok a => f a | Raise e => Raise e end.

(** [d[key]] on the dict named [dict]: a missing key raises [KeyError]. *)
Definition getitem {A} (dict : string) (o : option A) : res A :=
  match o with Some a => Ok a | None => Raise (KeyError dict) end.

(** Loops whose body may raise. *)
Fixpoint foldM {A B} (f : A → B → res A) (a : A) (l : list B) : res A :=
  match l with
  | [] => Ok a
  | b :: l' => a' ← f a b; foldM f a' l'
  end.

Fixpoint forM {A B} (f : A → res B) (l : list A) : res (list B) :=
  match l with
  | [] => Ok []
  | a :: l' => b ← f a; bs ← forM f l'; Ok (b :: bs)
  end.

(** ** Data model *)

Definition TWO32 : Z := 2 ^ 32.

(** A row of [gmf_data/data]:
    ('rlzi', U16), ('sid', U32), ('eid', U64), ('gmv', (F32, (len(imtls),))) *)
Record GmfRow : Type := mkGmfRow {
  rlzi : nat;
  sid : nat;
  eid : Z;
  gmv : list R;
}.

Definition set_eid (row : GmfRow) (e : Z) : GmfRow :=
  {| rlzi := rlzi row; sid := sid row; eid := e; gmv := gmv row |}.

(** ** [replace_eid] *)

(** [numpy.unique(a, return_inverse=True)]: the sorted distinct values of
    [a] and, for every cell of [a], its position among them. *)
Definition index_of (x : Z) (l : list Z) : nat :=
  match list_find (λ y, y = x) l with
  | Some (i, _) => i
  | None => 0%nat
  end.

Definition unique (a : list Z) : list Z * list nat :=
  let uniq := merge_sort Z.le (remove_dups a) in
  (uniq, (λ x, index_of x uniq) <$> a).

(** Fancy indexing [arr[inv]]; an index out of bounds raises (it never does
    for the [inv] that [unique] returns). *)
Definition take_indices (arr : list Z) (inv : list nat) : res (list Z) :=
  forM (λ i, getitem "arr" (arr !! i)) inv.

(** Assignment to a column: [data['eid'] = col]; numpy refuses a column
    that is not of the length of [data]. *)
Fixpoint assign_eid (data : list GmfRow) (col : list Z) : res (list GmfRow) :=
  match data, col with
  | [], [] => Ok []
  | row :: data', e :: col' => rows ← assign_eid data' col'; Ok (set_eid row e :: rows)
  | _, _ => Raise BroadcastError
  end.

(** The values of [eid2idx] are indices, as those of the dictionaries that
    the calculator passes: numbers from 0 to 2^63 - 1, which [numpy.array]
    collects in an array of integers and the [U64] column stores as they
    are. What numpy does with a value that is out of this range (it wraps
    a negative one, and raises an [OverflowError] for one that needs more
    than 64 bits) is not represented. *)
Definition replace_eid (data : list GmfRow) (eid2idx : gmap Z Z) : res (list GmfRow) :=
  let '(uniq, inv) := unique (eid <$> data) in
  idxs ← forM (λ e, getitem "eid2idx" (eid2idx !! e)) uniq;
  col ← take_indices idxs inv;
  assign_eid data col.

(** ** Ruptures, events and the logic tree *)

(** An [EBRupture] as far as the calculator looks into it. *)
Record EBRupture : Type := mkEBRupture {
  serial : Z;
  grp_id : nat;
  n_occ : nat;
}.

(** A record of the [events] dataset. *)
Record Event : Type := mkEvent {
  ev_eid : Z;
  ev_serial : Z;
  ev_rlz : nat;
  ev_grp : nat;
}.

(** [rlzs_by_gsim]: an ordered dictionary gsim -> realizations. *)
Definition RlzsByGsim : Type := list (string * list nat).

(** [sum(len(rlzs) for rlzs in rlzs_by_gsim.values())] *)
Definition num_rlzs (rlzs_by_gsim : RlzsByGsim) : nat :=
  foldr (λ rlzs acc, (length rlzs + acc)%nat) 0%nat (snd <$> rlzs_by_gsim).

(** A source, with the attribute [eb_ruptures] that [build_ruptures]
    attaches to it ([None] before the sampling). *)
Record Source : Type := mkSource {
  source_id : string;
  src_group_id : nat;
  num_ruptures : Z;
  eb_ruptures : option (list EBRupture);
}.

(** The functions of hazardlib that are called and are not part of the
    calculator: they are parameters of the development. *)
Class Hazardlib : Type := {
  (** [EBRupture.get_eids(num_rlzs)] *)
  get_eids : EBRupture → nat → list Z;
  (** [sample_ruptures([src], param, srcfilter, mon)['eb_ruptures']] *)
  sample_ruptures : Source → list EBRupture;
}.

(** Modelled from the spec: [EBRupture.get_events(rlzs_by_gsim)] belongs to
    hazardlib and is missing. The expander "emits one Event per (rupture
    occurrence, realization) pair" and "assigns eid by a monotonic counter
    that is advanced exactly once per emitted event and never reused"; an
    event carries its eid, the serial of its rupture, its realization and
    its group. The counter is threaded through as a state. *)
Definition occurrences (ebr : EBRupture) (rlzs_by_gsim : RlzsByGsim) : list (nat * nat) :=
  rlz ← concat (snd <$> rlzs_by_gsim);
  occ ← seq 0 (n_occ ebr);
  [(rlz, occ)].

Definition EBRupture_get_events (ebr : EBRupture) (rlzs_by_gsim : RlzsByGsim)
    (counter : Z) : list Event * Z :=
  let pairs := occurrences ebr rlzs_by_gsim in
  (imap (λ i p, mkEvent (counter + Z.of_nat i) (serial ebr) (fst p) (grp_id ebr)) pairs,
   counter + Z.of_nat (length pairs)).

(** ** [get_events] (the function of the module) *)

Fixpoint get_events_of (ebrs : list EBRupture) (rlzs_by_gsim : RlzsByGsim)
    (counter : Z) : list (list Event) * Z :=
  match ebrs with
  | [] => ([], counter)
  | ebr :: ebrs' =>
      let '(evs, counter) := EBRupture_get_events ebr rlzs_by_gsim counter in
      let '(rest, counter) := get_events_of ebrs' rlzs_by_gsim counter in
      (evs :: rest, counter)
  end.

Definition get_events (ebruptures : list EBRupture) (rlzs_by_gsim : RlzsByGsim)
    (counter : Z) : list Event * Z :=
  let ebrs := ebruptures in
  if decide (ebrs = []) then ([], counter)
  else
    let '(arrays, counter) := get_events_of ebrs rlzs_by_gsim counter in
    (concat arrays, counter).

(** ** [build_ruptures] *)

(** [build_ruptures] is a generator. It has one list object, [acc]: every
    [yield acc] hands out this very object, and the generator clears it when
    it is resumed after a [yield] of the loop. A generator is modelled by
    the point at which it is suspended, the sources it has not seen yet,
    the content of [acc] and the counter [n]. *)
Definition set_eb_ruptures (src : Source) (ebrs : list EBRupture) : Source :=
  {| source_id := source_id src; src_group_id := src_group_id src;
     num_ruptures := num_ruptures src; eb_ruptures := Some ebrs |}.

Inductive GenPoint : Type :=
  | AtStart          (* not started, the loop is entered by the first [next] *)
  | AfterYield       (* suspended at the [yield acc] of the loop *)
  | AfterLastYield   (* suspended at the [yield acc] that follows the loop *)
  | Exhausted.

Record Generator : Type := mkGenerator {
  point : GenPoint;
  todo : list Source;
  acc_cell : list Source;
  counter_n : Z;
}.

(** The loop, from the head of the [for] to the next [yield] or to the end:
    the content of [acc] that is yielded, if any, and the generator as it
    is suspended. *)
Fixpoint gen_loop `{Hazardlib} (ruptures_per_block : Z)
    (srcs acc : list Source) (n : Z) : option (list Source) * Generator :=
  match srcs with
  | [] =>
      if decide (acc ≠ []) then (Some acc, mkGenerator AfterLastYield [] acc n)
      else (None, mkGenerator Exhausted [] acc n)
  | src :: srcs' =>
      let dic := sample_ruptures src in
      let src := set_eb_ruptures src dic in
      let acc := acc ++ [src] in
      let n := n + Z.of_nat (length dic) in
      if decide (n > ruptures_per_block) then (Some acc, mkGenerator AfterYield srcs' acc n)
      else gen_loop ruptures_per_block srcs' acc n
  end.

(** [next(gen)]; after a yield of the loop the generator goes on with
    [n = 0] and [acc.clear()]. *)
Definition gen_next `{Hazardlib} (ruptures_per_block : Z) (g : Generator)
    : option (list Source) * Generator :=
  match point g with
  | AtStart => gen_loop ruptures_per_block (todo g) (acc_cell g) (counter_n g)
  | AfterYield => gen_loop ruptures_per_block (todo g) [] 0
  | AfterLastYield | Exhausted => (None, mkGenerator Exhausted [] (acc_cell g) (counter_n g))
  end.

(** The consumer that takes the content of each batch when the batch is
    delivered, as the task scheduler does when it sends the batch away:
    the contents one after the other, and the generator in the end. *)
Fixpoint gen_run `{Hazardlib} (fuel : nat) (ruptures_per_block : Z) (g : Generator)
    : list (list Source) * Generator :=
  match fuel with
  | O => ([], g)
  | S fuel =>
      match gen_next ruptures_per_block g with
      | (Some batch, g) =>
          let '(batches, g) := gen_run fuel ruptures_per_block g in (batch :: batches, g)
      | (None, g) => ([], g)
      end
  end.

(** A [next] consumes a source or ends the generator: two calls more than
    there are sources exhaust it. *)
Definition build_ruptures `{Hazardlib} (srcs : list Source) (ruptures_per_block : Z)
    : list (list Source) :=
  (gen_run (S (S (length srcs))) ruptures_per_block (mkGenerator AtStart srcs [] 0)).1.

(** What a consumer that keeps the yielded objects, [list(build_ruptures(...))],
    holds in the end: as many references as batches, all to the list [acc]
    as the generator leaves it. *)
Definition build_ruptures_kept `{Hazardlib} (srcs : list Source) (ruptures_per_block : Z)
    : list (list Source) :=
  let '(batches, g) :=
    gen_run (S (S (length srcs))) ruptures_per_block (mkGenerator AtStart srcs [] 0) in
  replicate (length batches) (acc_cell g).

(** The batches again, by recursion on the sources. *)
Fixpoint build_ruptures_loop `{Hazardlib} (ruptures_per_block : Z)
    (srcs acc : list Source) (n : Z) : list (list Source) :=
  match srcs with
  | [] => if decide (acc ≠ []) then [acc] else []
  | src :: srcs' =>
      let dic := sample_ruptures src in
      let src := set_eb_ruptures src dic in
      let acc := acc ++ [src] in
      let n := n + Z.of_nat (length dic) in
      if decide (n > ruptures_per_block) then
        acc :: build_ruptures_loop ruptures_per_block srcs' [] 0
      else build_ruptures_loop ruptures_per_block srcs' acc n
  end.

(** The number of ruptures carried by a batch. *)
Definition rupture_count (batch : list Source) : Z :=
  foldr (λ src k, Z.of_nat (length (default [] (eb_ruptures src))) + k) 0 batch.

(** ** Probability maps and the hazard-curve update *)

(** A [ProbabilityMap] of hazardlib: site id -> curve of [shape_y] cells
    (the column 0 of its array of shape [(shape_y, 1)]). *)
Record ProbabilityMap : Type := mkProbabilityMap {
  shape_y : nat;
  curves : gmap nat (list R);
}.

(** [imtls], a [DictArray]: [imtls(imt)] is the slice of the levels of
    [imt] inside [imtls.array]. *)
Record DictArray : Type := mkDictArray {
  slicedic : gmap string (nat * nat);
  array_len : nat;
}.

(** [1 - (1 - p) * (1 - poe)] in exact arithmetic, as the design document
    writes the update; [bernoulli64] below is the line of the code, in
    [float64]. *)
Definition bernoulli (p poe : R) : R := (1 - (1 - p) * (1 - poe))%R.

(** [array[:] = 1. - (1. - array) * (1. - poes)]: [poes] is broadcast when
    it has one cell, otherwise the shapes have to agree. *)
Definition update_array (array poes : list R) : res (list R) :=
  if decide (length poes = length array) then Ok (zip_with bernoulli array poes)
  else match poes with
       | [poe] => Ok ((λ p, bernoulli p poe) <$> array)
       | _ => Raise BroadcastError
       end.

(** One pass of the loop over [result['hcurves']]; the key is taken as
    parsed by [str2rsi]. The array is a view on the cells
    [slice(start, stop)] of the curve, clipped to the curve as numpy does,
    and is written in place. *)
Definition HCurves : Type := list ((nat * nat * string) * list R).
Definition Acc : Type := gmap nat ProbabilityMap.

Definition hcurve_update (imtls : DictArray) (acc : gmap nat ProbabilityMap)
    (item : (nat * nat * string) * list R) : res (gmap nat ProbabilityMap) :=
  let '((r, sid, imt), poes) := item in
  pmap ← getitem "acc" (acc !! r);
  let curve := default (replicate (shape_y pmap) 0%R) (curves pmap !! sid) in
  slc ← getitem "imtls" (slicedic imtls !! imt);
  let lo := (fst slc `min` length curve)%nat in
  let hi := (lo `max` (snd slc `min` length curve))%nat in
  array ← update_array (take (hi - lo) (drop lo curve)) poes;
  let curve := take lo curve ++ array ++ drop hi curve in
  Ok (<[r := mkProbabilityMap (shape_y pmap) (<[sid := curve]> (curves pmap))]> acc).

Definition agg_hcurves (imtls : DictArray) (acc : gmap nat ProbabilityMap)
    (hcurves : HCurves) : res (gmap nat ProbabilityMap) :=
  foldM (hcurve_update imtls) acc hcurves.

(** ** The calculator *)

Record OqParam : Type := mkOqParam {
  calculation_mode : string;
  ground_motion_fields : bool;
  hazard_calculation_id : option nat;
  ruptures_per_block : Z;
  imtls : DictArray;
}.

(** What stays fixed during [execute]. *)
Record Calculator : Type := mkCalculator {
  oqparam : OqParam;
  sitecol : nat;                (* len(self.sitecol) *)
  sitecol_complete : nat;       (* len(self.sitecol.complete) *)
  rlzs_by_gsim_grp : gmap nat RlzsByGsim;
  nrlzs : nat;                  (* self.R *)
}.

(** The attributes that are mutated and the datasets of the datastore. *)
Record State : Type := mkState {
  ruptures : list EBRupture;                      (* datastore['ruptures'] *)
  events : option (list Event);                   (* datastore['events'] *)
  gmf_data : option (list GmfRow);                (* datastore['gmf_data/data'] *)
  gmf_indices : option (list (list Z * list Z));  (* datastore['gmf_data/indices'] *)
  events_by_sid : option (list Z);                (* datastore['gmf_data/events_by_sid'] *)
  offset : Z;
  indices : gmap (nat * nat) (list Z);
  idx : Z;
  eid2idx_cache : option (gmap Z Z);
  eid_counter : Z;              (* the counter of the event expander *)
}.

Definition set_ruptures (st : State) v : State :=
  mkState v (events st) (gmf_data st) (gmf_indices st) (events_by_sid st)
    (offset st) (indices st) (idx st) (eid2idx_cache st) (eid_counter st).
Definition set_events (st : State) v : State :=
  mkState (ruptures st) v (gmf_data st) (gmf_indices st) (events_by_sid st)
    (offset st) (indices st) (idx st) (eid2idx_cache st) (eid_counter st).
Definition set_gmf_data (st : State) v : State :=
  mkState (ruptures st) (events st) v (gmf_indices st) (events_by_sid st)
    (offset st) (indices st) (idx st) (eid2idx_cache st) (eid_counter st).
Definition set_gmf_indices (st : State) v w : State :=
  mkState (ruptures st) (events st) (gmf_data st) v w
    (offset st) (indices st) (idx st) (eid2idx_cache st) (eid_counter st).
Definition set_offset (st : State) v : State :=
  mkState (ruptures st) (events st) (gmf_data st) (gmf_indices st) (events_by_sid st)
    v (indices st) (idx st) (eid2idx_cache st) (eid_counter st).
Definition set_indices (st : State) v : State :=
  mkState (ruptures st) (events st) (gmf_data st) (gmf_indices st) (events_by_sid st)
    (offset st) v (idx st) (eid2idx_cache st) (eid_counter st).
Definition set_idx (st : State) v : State :=
  mkState (ruptures st) (events st) (gmf_data st) (gmf_indices st) (events_by_sid st)
    (offset st) (indices st) v (eid2idx_cache st) (eid_counter st).
Definition set_eid2idx_cache (st : State) v : State :=
  mkState (ruptures st) (events st) (gmf_data st) (gmf_indices st) (events_by_sid st)
    (offset st) (indices st) (idx st) v (eid_counter st).
Definition set_eid_counter (st : State) v : State :=
  mkState (ruptures st) (events st) (gmf_data st) (gmf_indices st) (events_by_sid st)
    (offset st) (indices st) (idx st) (eid2idx_cache st) v.

(** [datastore.extend(key, array)] creates the dataset when it is missing. *)
Definition extend {A} (dset : option (list A)) (array : list A) : option (list A) :=
  Some (default [] dset ++ array).

(** [dict(pairs)]: a later pair overrides an earlier one with the same key. *)
Definition dict {K V} `{Countable K} (pairs : list (K * V)) : gmap K V :=
  foldl (λ d kv, <[kv.1 := kv.2]> d) ∅ pairs.

(** [numpy.arange(n, dtype=U32)] *)
Definition arange_U32 (n : nat) : list Z := (λ i, Z.of_nat i `mod` TWO32) <$> seq 0 n.

(** The cached property [eid2idx]. *)
Definition eid2idx (st : State) : res (gmap Z Z * State) :=
  match eid2idx_cache st with
  | Some d => Ok (d, st)
  | None =>
      evs ← getitem "events" (events st);
      let eids := ev_eid <$> evs in
      let d := dict (zip eids (arange_U32 (length eids))) in
      Ok (d, set_eid2idx_cache st (Some d))
  end.

(** *** [save_ruptures] *)
Definition save_ruptures `{Hazardlib} (self : Calculator) (st : State)
    (rups : list EBRupture) : res (State * list Event) :=
  match rups with
  | [] => Ok (st, [])
  | rup0 :: _ =>
      let st := set_ruptures st (ruptures st ++ rups) in
      rlzs_by_gsim ← getitem "rlzs_by_gsim_grp" (rlzs_by_gsim_grp self !! grp_id rup0);
      let '(evs, counter) := get_events rups rlzs_by_gsim (eid_counter st) in
      let st := set_eid_counter st counter in
      let num_rlzs := num_rlzs rlzs_by_gsim in
      let eids := concat ((λ rup, get_eids rup num_rlzs) <$> rups) in
      if decide (eids = ev_eid <$> evs) then
        Ok (set_events st (extend (events st) evs), evs)
      else Raise (EidMismatch eids (ev_eid <$> evs))
  end.

(** *** [agg_dicts] *)

(** What a task hands to the reduction: the attribute [ruptures_by_grp]
    and the keys [gmdata], [gmfdata], [indices] and [hcurves] of the
    result dictionary, each of which may be missing. *)
Record TaskResult : Type := mkTaskResult {
  ruptures_by_grp : list (nat * list EBRupture);
  has_gmdata : bool;
  gmfdata : option (list GmfRow);
  res_indices : option (list (nat * Z * Z));
  hcurves : option HCurves;
}.

(** [self.indices[key].append(x)] on a [defaultdict(list)] *)
Definition indices_append (indices : gmap (nat * nat) (list Z)) (key : nat * nat) (x : Z)
    : gmap (nat * nat) (list Z) :=
  <[key := default [] (indices !! key) ++ [x]]> indices.

Definition record_indices (offset : Z) (indices : gmap (nat * nat) (list Z))
    (triples : list (nat * Z * Z)) : gmap (nat * nat) (list Z) :=
  foldl (λ indices t,
           let '(sid, start, stop) := t in
           let indices := indices_append indices (sid, 0%nat) (start + offset) in
           indices_append indices (sid, 1%nat) (stop + offset))
        indices triples.

(** The loop that numbers the events of a UCERF task. *)
Definition number_events (eids : list Z) (idx : Z) : gmap Z Z * Z :=
  foldl (λ '(eid2idx, idx) eid, (<[eid := idx]> eid2idx, idx + 1)) (∅, idx) eids.

(** Lines 315-325: the dictionary from event IDs to event indices. A UCERF
    task brings its own ruptures, which are saved and whose events are
    numbered here; otherwise the dictionary is the cached property. *)
Definition event_indices `{Hazardlib} (self : Calculator) (st : State)
    (result : TaskResult) : res (gmap Z Z * State) :=
  let ucerf := String.prefix "ucerf" (calculation_mode (oqparam self)) in
  if ucerf then
    match snd <$> ruptures_by_grp result with
    | [ruptures] =>
        '(st, events) ← save_ruptures self st ruptures;
        let '(eid2idx, idx) := number_events (ev_eid <$> events) (idx st) in
        Ok (eid2idx, set_idx st idx)
    | _ => Raise UnpackError
    end
  else eid2idx st.

(** Lines 328-343, the block monitored as 'saving gmfs'. *)
Definition save_gmfs (st : State) (eid2idx : gmap Z Z) (result : TaskResult) : res State :=
  if has_gmdata result then
    data ← getitem "result" (gmfdata result);
    data ← replace_eid data eid2idx;
    let st := set_gmf_data st (extend (gmf_data st) data) in
    triples ← getitem "result" (res_indices result);
    let st := set_indices st (record_indices (offset st) (indices st) triples) in
    let st := set_offset st (offset st + Z.of_nat (length data)) in
    if decide (offset st >= TWO32) then Raise (GmfRowsError TWO32) else Ok st
  else Ok st.

(** The block monitored as 'aggregating hcurves' is [agg_hcurves]. *)
Definition agg_dicts `{Hazardlib} (self : Calculator) (sa : State * Acc)
    (result : TaskResult) : res (State * Acc) :=
  let '(st, acc) := sa in
  '(eid2idx, st) ← event_indices self st result;
  st ← save_gmfs st eid2idx result;
  acc ← agg_hcurves (imtls (oqparam self)) acc (default [] (hcurves result));
  Ok (st, acc).

(** *** [check_overflow] *)
Definition check_overflow (self : Calculator) (st : State) : res unit :=
  let max_ : list (string * Z) := [("sites", 2 ^ 16); ("events", 2 ^ 32); ("imts", 2 ^ 8)] in
  let events := match events st with
                | Some evs => Z.of_nat (length evs)
                | None => 0
                end in
  let num_ : gmap string Z :=
    dict [("sites", Z.of_nat (sitecol self)); ("events", events);
          ("imts", Z.of_nat (size (slicedic (imtls (oqparam self)))))] in
  foldM (λ _ var_max,
           n ← getitem "num_" (num_ !! var_max.1);
           if decide (n > var_max.2) then Raise (OverflowValueError var_max.2 var_max.1 n)
           else Ok ())
        () max_.

(** *** [_store_ruptures] and [from_sources] *)
Definition _store_ruptures `{Hazardlib} (self : Calculator) (st : State)
    (srcs_by_grp : list (nat * list Source)) : res State :=
  foldM (λ st src,
           ebrs ← match eb_ruptures src with
                  | Some ebrs => Ok ebrs
                  | None => Raise (AttributeError "eb_ruptures")
                  end;
           '(st, _) ← save_ruptures self st ebrs;
           Ok st)
        st (concat (snd <$> srcs_by_grp)).

(** [evs.sort(order='eid')]: the records are compared on [eid]; numpy breaks
    the ties with the fields that were not named, in the order of the
    record. *)
Definition event_le (e1 e2 : Event) : Prop :=
  ev_eid e1 < ev_eid e2 ∨ (ev_eid e1 = ev_eid e2 ∧
  (ev_serial e1 < ev_serial e2 ∨ (ev_serial e1 = ev_serial e2 ∧
  ((ev_rlz e1 < ev_rlz e2)%nat ∨ (ev_rlz e1 = ev_rlz e2 ∧
  (ev_grp e1 ≤ ev_grp e2)%nat))))).

#[global] Instance event_le_dec e1 e2 : Decision (event_le e1 e2).
Proof. unfold event_le. apply _. Defined.

Definition sort_by_eid (evs : list Event) : list Event := merge_sort event_le evs.

(** The part of [from_sources] that follows the sampling: [srcs_by_grp] is
    what the sampling tasks have delivered, group by group. *)
Definition from_sources `{Hazardlib} (self : Calculator) (st : State)
    (srcs_by_grp : list (nat * list Source)) : res State :=
  st ← _store_ruptures self st srcs_by_grp;
  evs ← getitem "events" (events st);
  let evs := sort_by_eid evs in
  Ok (set_events st (Some evs)).

(** *** [execute] *)

(** [zerodict]: [{r: ProbabilityMap(self.L) for r in range(self.R)}] *)
Definition zerodict (self : Calculator) : Acc :=
  dict ((λ r, (r, mkProbabilityMap (array_len (imtls (oqparam self))) ∅)) <$> seq 0 (nrlzs self)).

(** The substring test [sub in s]. *)
Fixpoint str_in (sub s : string) : bool :=
  String.prefix sub s ||
  match s with
  | EmptyString => false
  | String _ s' => str_in sub s'
  end.

Definition to_U32 (z : Z) : Z := z `mod` TWO32.

(** The datasets [gmf_data/indices] and [gmf_data/events_by_sid]. *)
Definition save_indices (self : Calculator) (st : State) : State :=
  let rows := (λ sid,
                 let start := default [] (indices st !! (sid, 0%nat)) in
                 let stop := default [] (indices st !! (sid, 1%nat)) in
                 (to_U32 <$> start, to_U32 <$> stop,
                  to_U32 (foldr Z.add 0 (zip_with Z.sub stop start))))
              <$> seq 0 (sitecol_complete self) in
  set_gmf_indices st (Some (fst <$> rows)) (Some (snd <$> rows)).

(** [parallel.Starmap(...).reduce(self.agg_dicts, acc)]: the reducer is
    applied to the results of the tasks, one after the other, in the order
    in which the scheduler delivers them. *)
Definition reduce `{Hazardlib} (self : Calculator) (sa : State * Acc)
    (results : list TaskResult) : res (State * Acc) :=
  foldM (agg_dicts self) sa results.

(** From the beginning of [execute] to the call of [check_overflow]; the
    result is [None] when [execute] returns early, the ruptures and the
    events being stored and no ground motion field being wanted. *)
Definition execute_reduce `{Hazardlib} (self : Calculator) (st : State)
    (srcs_by_grp : list (nat * list Source)) (results : list TaskResult)
    : res (State * option Acc) :=
  let oq := oqparam self in
  let st := set_indices (set_offset st 0) ∅ in
  '(st, proceed) ←
    match hazard_calculation_id oq with
    | Some (S _) =>
        if ground_motion_fields oq then Ok (st, true) else Raise GmfAssertion
    | _ =>
        st ← from_sources self st srcs_by_grp;
        Ok (st, ground_motion_fields oq)
    end;
  if proceed : bool then
    let st := set_idx st 0 in
    '(st, acc) ← reduce self (st, zerodict self) results;
    _ ← check_overflow self st;
    Ok (st, Some acc)
  else Ok (st, None).

Definition execute `{Hazardlib} (self : Calculator) (st : State)
    (srcs_by_grp : list (nat * list Source)) (results : list TaskResult)
    : res (State * Acc) :=
  let oq := oqparam self in
  '(st, reduced) ← execute_reduce self st srcs_by_grp results;
  match reduced with
  | None => Ok (st, ∅)
  | Some acc =>
      if decide (indices st ≠ ∅) then Ok (save_indices self st, acc)
      else if ground_motion_fields oq && negb (str_in "ucerf" (calculation_mode oq))
      then Raise NoGMFsError
      else Ok (st, acc)
  end.

(** ** Vocabulary of the statements *)

(** The number of events that are persisted. *)
Definition persisted_events (st : State) : Z :=
  match events st with Some evs => Z.of_nat (length evs) | None => 0 end.

Definition num_imts (self : Calculator) : Z :=
  Z.of_nat (size (slicedic (imtls (oqparam self)))).

(** The cached dictionary [eid2idx], when it has been computed, is the one
    of the events dataset as it is now. *)
Definition cache_ok (st : State) : Prop :=
  match eid2idx_cache st with
  | None => True
  | Some d =>
      ∃ evs, events st = Some evs ∧
             d = dict (zip (ev_eid <$> evs) (arange_U32 (length (ev_eid <$> evs))))
  end.

(** An instance of the functions of hazardlib to run the examples with: the
    serial of a rupture is the first of its event IDs, and sampling gives
    back the ruptures that the source carries. *)
Definition example_hazardlib : Hazardlib :=
  {| get_eids := λ rup num_rlzs,
       (λ i, serial rup + Z.of_nat i) <$> seq 0 (n_occ rup * num_rlzs);
     sample_ruptures := λ src, default [] (eb_ruptures src) |}.

(** Two sources of the group 0, with one rupture each. *)
Definition example_source_a : Source := mkSource "a" 0 1 (Some [mkEBRupture 0 0 3]).
Definition example_source_b : Source := mkSource "b" 0 1 (Some [mkEBRupture 6 0 1]).
Definition example_sources : list Source := [example_source_a; example_source_b].

Definition example_oqparam (mode : string) (gmf : bool) : OqParam :=
  mkOqParam mode gmf None 1 (mkDictArray {[ "PGA" := (0, 2)%nat ]} 2).

Definition example_calculator (mode : string) (gmf : bool) : Calculator :=
  mkCalculator (example_oqparam mode gmf) 1 1 {[ 0%nat := [("gsim", [0; 1]%nat)] ]} 2.

Definition initial_state : State :=
  mkState [] None None None None 0 ∅ 0 None 0.

(** Two events, stored in the order of their IDs, and a batch of two rows
    that refer to them. *)
Definition example_events : list Event :=
  [mkEvent 3 0 0 0; mkEvent 7 0 1 0].

Definition example_rows : list GmfRow :=
  [mkGmfRow 1 0 7 []; mkGmfRow 0 0 3 []].

Definition example_result : TaskResult :=
  mkTaskResult [] true (Some example_rows) (Some [(0%nat, 0, 2)]) None.

(** The rows and the site ranges that a result brings to [agg_dicts]. *)
Definition batch_data (result : TaskResult) : list GmfRow :=
  if has_gmdata result then default [] (gmfdata result) else [].

Definition batch_rows (result : TaskResult) : nat := length (batch_data result).

Definition batch_ranges (result : TaskResult) : list (nat * Z * Z) :=
  if has_gmdata result then default [] (res_indices result) else [].

(** The ranges of a batch are relative to the batch. *)
Definition batch_relative (result : TaskResult) : Prop :=
  Forall (λ t : nat * Z * Z, 0 <= t.1.2 ∧ t.1.2 <= t.2 ∧ t.2 <= Z.of_nat (batch_rows result))
         (batch_ranges result).

(** The global ranges as the design states them: each call translates the
    ranges of its batch by the offset that it finds, then advances the
    offset by the rows that it has appended. One list per call. *)
Definition shift_range (offset : Z) (t : nat * Z * Z) : nat * Z * Z :=
  (t.1.1, t.1.2 + offset, t.2 + offset).

Fixpoint global_ranges (offset : Z) (results : list TaskResult) : list (list (nat * Z * Z)) :=
  match results with
  | [] => []
  | result :: results' =>
      (shift_range offset <$> batch_ranges result)
        :: global_ranges (offset + Z.of_nat (batch_rows result)) results'
  end.

(** The rows appended by the calls that come before the call number [k]. *)
Definition rows_before (k : nat) (results : list TaskResult) : Z :=
  Z.of_nat (sum_list (batch_rows <$> take k results)).

(** The (start, stop) pairs of a site, in the order of recording. *)
Definition site_ranges (s : nat) (ranges : list (nat * Z * Z)) : list (Z * Z) :=
  omap (λ t : nat * Z * Z, if decide (t.1.1 = s) then Some (t.1.2, t.2) else None) ranges.

(** What [replace_eid] leaves alone in a row. *)
Definition payload (row : GmfRow) : nat * nat * list R := (rlzi row, sid row, gmv row).

(** The hazard-curve update, cell by cell. The view of a slice on a curve
    of [n] cells, the condition under which numpy broadcasts [poes] on a
    view of [n] cells, the exceedance probability that meets the cell [j]
    of the view, and the curve after the update. *)
Definition view (slc : nat * nat) (n : nat) : nat * nat :=
  let lo := (slc.1 `min` n)%nat in (lo, (lo `max` (slc.2 `min` n))%nat).

Definition broadcastable (n : nat) (poes : list R) : Prop :=
  length poes = n ∨ length poes = 1%nat.

Definition poe_at (n : nat) (poes : list R) (j : nat) : R :=
  if decide (length poes = n) then default 0%R (poes !! j) else default 0%R (head poes).

Definition update_cells (slc : nat * nat) (poes : list R) (curve : list R) : list R :=
  let v := view slc (length curve) in
  imap (λ i p, if decide (v.1 <= i < v.2)%nat
               then bernoulli p (poe_at (v.2 - v.1) poes (i - v.1)) else p) curve.

(** The contributions of a result, and of a list of results. *)
Definition contributions (results : list TaskResult) : HCurves :=
  result ← results; default [] (hcurves result).

(** The curve of a site in a probability map, as [setdefault(sid, 0)]
    delivers it, and the accumulator after the update of that curve. *)
Definition curve_of (pmap : ProbabilityMap) (s : nat) : list R :=
  default (replicate (shape_y pmap) 0%R) (curves pmap !! s).

Definition view_size (slc : nat * nat) (n : nat) : nat := ((view slc n).2 - (view slc n).1)%nat.

Definition updated (acc : gmap nat ProbabilityMap) (r s : nat) (pmap : ProbabilityMap)
    (slc : nat * nat) (poes : list R) : gmap nat ProbabilityMap :=
  <[r := mkProbabilityMap (shape_y pmap)
           (<[s := update_cells slc poes (curve_of pmap s)]> (curves pmap))]> acc.

(** Two contributions to the curve of the site 0 of the realization 0, the
    second of which is broadcast. *)
Definition example_hcurves : HCurves :=
  [((0%nat, 0%nat, "PGA"), [(/ 2)%R; (/ 4)%R]); ((0%nat, 0%nat, "PGA"), [(/ 3)%R])].

(** A source as [build_ruptures] delivers it. *)
Definition sampled `{Hazardlib} (src : Source) : Source :=
  set_eb_ruptures src (sample_ruptures src).

(** A source without ruptures. *)
Definition empty_source : Source := mkSource "empty" 0 0 (Some []).

(** The result of a UCERF task: one rupture and one row of its fifth
    event. *)
Definition example_ucerf_result : TaskResult :=
  mkTaskResult [(0%nat, [mkEBRupture 0 0 3])] true (Some [mkGmfRow 1 0 4 []])
    (Some [(0%nat, 0, 1)]) None.

(** The errors that come from what a task or the datastore hands to the
    reducer: a missing key, a dictionary of ruptures that has not one value,
    arrays that do not fit, event IDs that do not match. *)
Definition input_error (e : exn) : Prop :=
  match e with
  | KeyError _ | UnpackError | BroadcastError | EidMismatch _ _ => True
  | _ => False
  end.

(** A probability, and an accumulator whose cells are probabilities. *)
Definition probability (p : R) : Prop := (0 <= p <= 1)%R.

Definition acc_probabilities (acc : gmap nat ProbabilityMap) : Prop :=
  ∀ r pmap s, acc !! r = Some pmap → Forall probability (curve_of pmap s).

(** The accumulator has the realizations [0 .. nr - 1], and each of its
    curves has [nl] cells. *)
Definition acc_shaped (nr nl : nat) (acc : gmap nat ProbabilityMap) : Prop :=
  (∀ r, is_Some (acc !! r) ↔ (r < nr)%nat) ∧
  ∀ r pmap s, acc !! r = Some pmap → shape_y pmap = nl ∧ length (curve_of pmap s) = nl.

(** [post_execute], up to its assertion on the number of the probability
    maps: [result] is what [execute] has returned, the weights are those of
    the realizations, [self.R] of them, and [hstats] is the number of the
    statistics that are asked for. The value is the pair of the numbers of
    the [AssertionError], if it is raised. *)
Definition post_execute_assertion (self : Calculator) (hazard_curves_from_gmfs : bool)
    (hstats : nat) (result : gmap nat ProbabilityMap) : option (nat * nat) :=
  if bool_decide (result ≠ ∅) && hazard_curves_from_gmfs then
    let weights := nrlzs self in
    let pmaps := (map_to_list result).*2 in
    if decide (hstats ≠ 0%nat) then
      if decide (weights ≠ length pmaps) then Some (weights, length pmaps) else None
    else None
  else None.

(** A result that contributes to the curve of the site 0 of the second
    realization. *)
Definition example_curves_result : TaskResult :=
  mkTaskResult [] false None None (Some [((1%nat, 0%nat, "PGA"), [(/ 2)%R; (/ 4)%R])]).

(** [max_gmf_size]: [nsids ebr] stands for [len(ebr.rupture.sctx.sids)],
    a dictionary is the list of its items. The function makes no use of
    its arguments [num_rlzs] and [samples_by_grp], which are left out. *)
Definition max_gmf_size (nsids : EBRupture → nat)
    (ruptures_by_grp : list (nat * list EBRupture)) (num_imts : nat) : Z :=
  let nbytes := 2 + 4 + 8 + 4 * Z.of_nat num_imts in
  let n := foldl (λ n item,
                    foldl (λ n ebr, n + Z.of_nat (nsids ebr) * Z.of_nat (n_occ ebr))
                          n item.2)
                 0 ruptures_by_grp in
  n * nbytes.

(** The variable [gmf_size] of [_store_ruptures] at the end of its loop,
    for sources that carry their ruptures. *)
Definition store_ruptures_gmf_size (nsids : EBRupture → nat) (self : Calculator)
    (srcs_by_grp : list (nat * list Source)) : Z :=
  foldl (λ gmf_size src,
           gmf_size + max_gmf_size nsids [(src_group_id src, default [] (eb_ruptures src))]
                        (size (slicedic (imtls (oqparam self)))))
        0 (concat (snd <$> srcs_by_grp)).

(** ** The hazard-curve update in [float64] *)










(** The values of a dictionary are indices that numpy keeps as integers
    and that the column [eid], of type [U64], stores as they are. *)
Definition index_values (eid2idx : gmap Z Z) : Prop :=
  map_Forall (λ _ idx, 0 <= idx < 2 ^ 63) eid2idx.

(** * Properties *)

(** ** The error monad *)

Lemma bind_Ok {A B} (m : res A) (f : A → res B) (b : B) :
  m ≫= f = Ok b ↔ ∃ a, m = Ok a ∧ f a = Ok b.
Proof.
  destruct m as [a|e]; simpl; split.
  - intros H. by exists a.
  - by intros (a' & [= ->] & H).
  - done.
  - by intros (a' & [=] & _).
Qed.

Lemma getitem_Ok {A} key (o : option A) a : getitem key o = Ok a ↔ o = Some a.
Proof. destruct o; simpl; split; congruence. Qed.

Lemma foldM_app {A B} (f : A → B → res A) a l1 l2 :
  foldM f a (l1 ++ l2) = (a' ← foldM f a l1; foldM f a' l2).
Proof.
  revert a. induction l1 as [|b l1 IH]; intros a; simpl; [done|].
  destruct (f a b) as [a'|e]; simpl; [apply IH|done].
Qed.

Lemma foldM_Ok_inv {A B} (f : A → B → res A) (P : A → Prop) a l a' :
  (∀ a b a', P a → f a b = Ok a' → P a') →
  P a → foldM f a l = Ok a' → P a'.
Proof.
  intros Hstep. revert a. induction l as [|b l IH]; intros a Ha; simpl.
  - by intros [= <-].
  - intros (a1 & H1 & H2)%bind_Ok. eauto.
Qed.

(** ** [check_overflow] *)

Lemma check_overflow_unfold self st :
  check_overflow self st =
    if decide (Z.of_nat (sitecol self) > 2 ^ 16) then
      Raise (OverflowValueError (2 ^ 16) "sites" (Z.of_nat (sitecol self)))
    else if decide (persisted_events st > 2 ^ 32) then
      Raise (OverflowValueError (2 ^ 32) "events" (persisted_events st))
    else if decide (num_imts self > 2 ^ 8) then
      Raise (OverflowValueError (2 ^ 8) "imts" (num_imts self))
    else Ok ().
Proof.
  unfold check_overflow, dict, persisted_events, num_imts. simpl foldl.
  cbn [foldM fst snd].
  rewrite (lookup_insert_ne _ "imts" "sites") by done.
  rewrite (lookup_insert_ne _ "events" "sites") by done.
  rewrite (lookup_insert_ne _ "imts" "events") by done.
  rewrite !lookup_insert_eq. cbn [getitem mbind res_bind].
  by repeat case_decide.
Qed.

(** C3. [check_overflow] raises the [ValueError] if and only if there are
    more than 65,536 sites, or more than 2^32 persisted events, or more than
    256 IMTs. The error reports the bound, the name and the full count of
    the first quantity that is out of bounds, in the order sites, events,
    imts; at or below the three bounds the call returns normally. *)
Theorem check_overflow_spec (self : Calculator) (st : State) :
  let sites := Z.of_nat (sitecol self) in
  let evs := persisted_events st in
  let imts := num_imts self in
  ((∃ e, check_overflow self st = Raise e)
     ↔ sites > 65536 ∨ evs > 4294967296 ∨ imts > 256) ∧
  (check_overflow self st = Ok ()
     ↔ sites <= 65536 ∧ evs <= 4294967296 ∧ imts <= 256) ∧
  (∀ e, check_overflow self st = Raise e →
     (e = OverflowValueError 65536 "sites" sites ∧ sites > 65536) ∨
     (e = OverflowValueError 4294967296 "events" evs ∧ evs > 4294967296) ∨
     (e = OverflowValueError 256 "imts" imts ∧ imts > 256)).
Proof.
  intros sites evs imts. rewrite check_overflow_unfold.
  fold sites evs imts.
  change (2 ^ 16) with 65536. change (2 ^ 32) with 4294967296.
  change (2 ^ 8) with 256.
  repeat case_decide; (split; [|split]).
  all: try (split; [intros [e He]; first [discriminate | lia] | intros; first [by eexists | lia]]).
  all: try (split; [intros He; first [discriminate | lia] | intros; first [done | lia]]).
  all: intros e He; first [discriminate | injection He as <-; auto 6].
Qed.

Lemma check_overflow_spec_witness :
  check_overflow (example_calculator "event_based" true)
    (set_events initial_state (Some example_events)) = Ok ().
Proof.
  apply (proj2 (proj1 (proj2 (check_overflow_spec _ _)))). by vm_compute.
Defined.

(** ** [replace_eid] *)

Lemma forM_getitem {A B} (f : A → option B) (g : A → B) name (l : list A) :
  (∀ x, x ∈ l → f x = Some (g x)) →
  forM (λ x, getitem name (f x)) l = Ok (g <$> l).
Proof.
  induction l as [|x l IH]; intros Hl; simpl; [done|].
  rewrite (Hl x) by left. simpl.
  rewrite IH; [done|]. intros y Hy. apply Hl. by right.
Qed.

Lemma forM_fmap {A B C} (f : B → res C) (g : A → B) (l : list A) :
  forM f (g <$> l) = forM (f ∘ g) l.
Proof. induction l as [|x l IH]; csimpl; [done|]. by rewrite IH. Qed.

Lemma elem_of_unique (a : list Z) x : x ∈ (unique a).1 ↔ x ∈ a.
Proof.
  unfold unique; simpl. rewrite merge_sort_Permutation. apply elem_of_remove_dups.
Qed.

Lemma lookup_index_of (x : Z) (l : list Z) : x ∈ l → l !! index_of x l = Some x.
Proof.
  intros Hx. unfold index_of.
  destruct (list_find (λ y, y = x) l) as [[i y]|] eqn:Hfind.
  - apply list_find_Some in Hfind as (Hi & -> & _). done.
  - apply list_find_None in Hfind. rewrite Forall_forall in Hfind.
    by destruct (Hfind x Hx).
Qed.

Lemma assign_eid_fmap (f : GmfRow → Z) (data : list GmfRow) :
  assign_eid data (f <$> data) = Ok ((λ row, set_eid row (f row)) <$> data).
Proof. induction data as [|row data IH]; csimpl; [done|]. by rewrite IH. Qed.

(** [replace_eid] maps the column [eid] through the dictionary when the
    dictionary knows every event ID of the column. *)
Lemma replace_eid_Ok (data : list GmfRow) (eid2idx : gmap Z Z) (f : Z → Z) :
  (∀ row, row ∈ data → eid2idx !! eid row = Some (f (eid row))) →
  replace_eid data eid2idx = Ok ((λ row, set_eid row (f (eid row))) <$> data).
Proof.
  intros Hdom. unfold replace_eid.
  destruct (unique (eid <$> data)) as [uniq inv] eqn:Hu.
  assert (Huniq : ∀ x, x ∈ uniq ↔ x ∈ eid <$> data).
  { intros x. by rewrite <- (elem_of_unique (eid <$> data)), Hu. }
  rewrite (forM_getitem _ f).
  2:{ intros x [row [-> Hrow]]%Huniq%list_elem_of_fmap. by apply Hdom. }
  simpl.
  assert (take_indices (f <$> uniq) inv = Ok ((λ row, f (eid row)) <$> data)) as ->.
  { assert (inv = (λ x, index_of x uniq) <$> (eid <$> data)) as ->.
    { unfold unique in Hu. by injection Hu as <- <-. }
    unfold take_indices. rewrite !forM_fmap.
    apply (forM_getitem (λ row, (f <$> uniq) !! index_of (eid row) uniq)
             (λ row, f (eid row)) "arr" data).
    intros row Hrow. rewrite list_lookup_fmap.
    rewrite lookup_index_of; [done|]. apply Huniq, list_elem_of_fmap. eauto. }
  simpl. apply assign_eid_fmap.
Qed.

(** A missing event ID is a [KeyError], whatever else the column holds. *)
Lemma forM_getitem_None {A B} (f : A → option B) name (l : list A) x :
  x ∈ l → f x = None → forM (λ x, getitem name (f x)) l = Raise (KeyError name).
Proof.
  induction 1 as [x l|x y l Hx IH]; intros Hf; simpl.
  - by rewrite Hf.
  - destruct (f y); simpl; [|done]. by rewrite IH.
Qed.

Lemma replace_eid_KeyError (data : list GmfRow) (eid2idx : gmap Z Z) row :
  row ∈ data → eid2idx !! eid row = None →
  replace_eid data eid2idx = Raise (KeyError "eid2idx").
Proof.
  intros Hrow Hnone. unfold replace_eid.
  destruct (unique (eid <$> data)) as [uniq inv] eqn:Hu.
  rewrite (forM_getitem_None _ _ _ (eid row)); [done| |done].
  change uniq with (uniq, inv).1. rewrite <- Hu. apply elem_of_unique.
  apply list_elem_of_fmap. eauto.
Qed.

Lemma replace_eid_inv (data rows : list GmfRow) (eid2idx : gmap Z Z) :
  replace_eid data eid2idx = Ok rows →
  Forall (λ row, is_Some (eid2idx !! eid row)) data ∧
  rows = (λ row, set_eid row (default 0 (eid2idx !! eid row))) <$> data.
Proof.
  intros Hok.
  destruct (decide (Forall (λ row, is_Some (eid2idx !! eid row)) data)) as [Hall|Hex].
  - split; [done|]. rewrite Forall_forall in Hall.
    rewrite (replace_eid_Ok _ _ (λ e, default 0 (eid2idx !! e))) in Hok.
    + by injection Hok as <-.
    + intros row [v Hv]%Hall. by rewrite Hv.
  - apply not_Forall_Exists in Hex; [|apply _].
    apply Exists_exists in Hex as (row & Hrow & Hnone).
    rewrite (replace_eid_KeyError _ _ row) in Hok; [done..|].
    by apply eq_None_not_Some.
Qed.

Lemma replace_eid_length (data rows : list GmfRow) (eid2idx : gmap Z Z) :
  replace_eid data eid2idx = Ok rows → length rows = length data.
Proof. intros [_ ->]%replace_eid_inv. by rewrite length_fmap. Qed.

(** ** The dictionary [eid2idx] *)

Lemma foldl_insert_lookup {K V} `{Countable K} (pairs : list (K * V)) (d : gmap K V) k v :
  foldl (λ d kv, <[kv.1 := kv.2]> d) d pairs !! k = Some v →
  (k, v) ∈ pairs ∨ d !! k = Some v.
Proof.
  revert d. induction pairs as [|[k' v'] pairs IH]; intros d; simpl; [auto|].
  intros [Hin|Hd]%IH.
  - left. by right.
  - destruct (decide (k' = k)) as [->|Hne].
    + rewrite lookup_insert_eq in Hd. injection Hd as ->. left. by left.
    + rewrite lookup_insert_ne in Hd by done. by right.
Qed.

Lemma dict_lookup_Some {K V} `{Countable K} (pairs : list (K * V)) k v :
  dict pairs !! k = Some v → (k, v) ∈ pairs.
Proof.
  intros [?|Hd]%foldl_insert_lookup; [done|]. by rewrite lookup_empty in Hd.
Qed.

Lemma arange_U32_lookup n i : (i < n)%nat → arange_U32 n !! i = Some (Z.of_nat i `mod` TWO32).
Proof.
  intros Hi. unfold arange_U32. rewrite list_lookup_fmap, lookup_seq_lt by done. done.
Qed.


(** ** Decomposition of a successful [agg_dicts] *)

Section agg_dicts_blocks.
Context `{Hazardlib}.

Lemma agg_dicts_Ok self st acc result st' acc' :
  agg_dicts self (st, acc) result = Ok (st', acc') ↔
  ∃ d st1, event_indices self st result = Ok (d, st1) ∧
           save_gmfs st1 d result = Ok st' ∧
           agg_hcurves (imtls (oqparam self)) acc (default [] (hcurves result)) = Ok acc'.
Proof.
  unfold agg_dicts. split.
  - intros ([d st1] & H1 & (st2 & H2 & (acc2 & H3 & [= <- <-])%bind_Ok)%bind_Ok)%bind_Ok.
    eauto.
  - intros (d & st1 & -> & H2 & H3). simpl. rewrite H2. simpl. by rewrite H3.
Qed.

Lemma save_gmfs_Ok st d result st' :
  save_gmfs st d result = Ok st' →
  if has_gmdata result then
    ∃ data rows triples,
      gmfdata result = Some data ∧ replace_eid data d = Ok rows ∧
      res_indices result = Some triples ∧
      offset st + Z.of_nat (length rows) < TWO32 ∧
      st' = set_offset
              (set_indices (set_gmf_data st (extend (gmf_data st) rows))
                 (record_indices (offset st) (indices st) triples))
              (offset st + Z.of_nat (length rows))
  else st' = st.
Proof.
  unfold save_gmfs. destruct (has_gmdata result); [|by intros [= ->]].
  intros (data & Hdata%getitem_Ok & (rows & Hrows & (triples & Htr%getitem_Ok & Hst)%bind_Ok)%bind_Ok)%bind_Ok.
  simpl in Hst. case_decide as Hoff; [done|]. injection Hst as <-.
  exists data, rows, triples. repeat split; try done. lia.
Qed.

Lemma event_indices_eid2idx self st result :
  String.prefix "ucerf" (calculation_mode (oqparam self)) = false →
  event_indices self st result = eid2idx st.
Proof. unfold event_indices. by intros ->. Qed.
End agg_dicts_blocks.

(** ** [replace_eid] inside [agg_dicts] *)

Section replace_eid_in_agg_dicts.
Context `{Hazardlib}.

Lemma eid2idx_Ok st d st1 :
  cache_ok st → eid2idx st = Ok (d, st1) →
  ∃ evs, events st = Some evs ∧
         d = dict (zip (ev_eid <$> evs) (arange_U32 (length (ev_eid <$> evs)))) ∧
         st1 = set_eid2idx_cache st (Some d).
Proof.
  unfold cache_ok, eid2idx. destruct st as [? ? ? ? ? ? ? ? [d0|] ?]; simpl.
  - intros (evs & -> & ->) [= <- <-]. by exists evs.
  - intros _ (evs & ->%getitem_Ok & [= <- <-])%bind_Ok. by exists evs.
Qed.

End replace_eid_in_agg_dicts.


(** ** The running offset and the site ranges *)

Lemma indices_append_lookup ind key x key' :
  default [] (indices_append ind key x !! key') =
  default [] (ind !! key') ++ (if decide (key = key') then [x] else []).
Proof.
  unfold indices_append. case_decide as Hk.
  - subst key'. by rewrite lookup_insert_eq.
  - rewrite lookup_insert_ne by done. by rewrite app_nil_r.
Qed.

Lemma record_indices_lookup off triples : ∀ ind s,
  default [] (record_indices off ind triples !! (s, 0%nat)) =
    default [] (ind !! (s, 0%nat)) ++ (fst <$> site_ranges s (shift_range off <$> triples)) ∧
  default [] (record_indices off ind triples !! (s, 1%nat)) =
    default [] (ind !! (s, 1%nat)) ++ (snd <$> site_ranges s (shift_range off <$> triples)).
Proof.
  unfold record_indices.
  induction triples as [|[[s' start] stop] triples IH]; intros ind s; csimpl.
  - by rewrite !app_nil_r.
  - destruct (IH (indices_append (indices_append ind (s', 0%nat) (start + off))
                    (s', 1%nat) (stop + off)) s) as [-> ->].
    rewrite !indices_append_lookup. unfold shift_range at 1 3. simpl.
    repeat case_decide; simplify_eq/=; by rewrite ?app_nil_r, <- ?app_assoc.
Qed.

Section offsets.
Context `{Hazardlib}.

Lemma save_ruptures_Ok self st rups st' evs :
  save_ruptures self st rups = Ok (st', evs) →
  (rups = [] ∧ st' = st ∧ evs = []) ∨
  (∃ rlzs_by_gsim counter,
     rups ≠ [] ∧
     (grp_id <$> head rups) ≫= (rlzs_by_gsim_grp self !!.) = Some rlzs_by_gsim ∧
     get_events rups rlzs_by_gsim (eid_counter st) = (evs, counter) ∧
     concat ((λ rup, get_eids rup (num_rlzs rlzs_by_gsim)) <$> rups) = ev_eid <$> evs ∧
     st' = set_events
             (set_eid_counter (set_ruptures st (ruptures st ++ rups)) counter)
             (extend (events st) evs)).
Proof.
  unfold save_ruptures. destruct rups as [|rup0 rest]; [intros [= <- <-]; by left|].
  intros (rbg & Hrbg%getitem_Ok & Hrest)%bind_Ok. right.
  destruct (get_events _ _ _) as [evs0 counter] eqn:Hev.
  case_decide as Heq; [|done]. injection Hrest as <- <-.
  exists rbg, counter. by repeat split.
Qed.

Lemma event_indices_frame self st result d st1 :
  event_indices self st result = Ok (d, st1) →
  offset st1 = offset st ∧ indices st1 = indices st ∧ gmf_data st1 = gmf_data st.
Proof.
  unfold event_indices. destruct (String.prefix _ _).
  - destruct (snd <$> ruptures_by_grp result) as [|rups [|]]; [done| |done].
    intros ([st2 evs] & Hsave & Hnum)%bind_Ok.
    destruct (number_events _ _) as [d' i]. injection Hnum as <- <-.
    apply save_ruptures_Ok in Hsave as [(_ & -> & _)|(? & ? & _ & _ & _ & _ & ->)]; done.
  - unfold eid2idx. destruct (eid2idx_cache st) as [d0|]; [by intros [= <- <-]|].
    by intros (evs & _ & [= <- <-])%bind_Ok.
Qed.

(** One call: the ranges are recorded against the offset that the call
    finds, the offset then grows by the rows of the batch, the rows are
    appended to the dataset, and the offset stays below 2^32. *)
Lemma agg_dicts_gmf self st acc result st' acc' :
  agg_dicts self (st, acc) result = Ok (st', acc') →
  offset st' = offset st + Z.of_nat (batch_rows result) ∧
  indices st' = record_indices (offset st) (indices st) (batch_ranges result) ∧
  (has_gmdata result = true → offset st' < TWO32) ∧
  ∃ rows, default [] (gmf_data st') = default [] (gmf_data st) ++ rows ∧
          payload <$> rows = payload <$> batch_data result.
Proof.
  intros (d & st1 & (Hoff & Hind & Hgmf)%event_indices_frame & Hsave & _)%agg_dicts_Ok.
  apply save_gmfs_Ok in Hsave. unfold batch_rows, batch_data, batch_ranges.
  destruct (has_gmdata result).
  - destruct Hsave as (data & rows & triples & -> & Hrows & -> & Hlt & ->). simpl.
    apply replace_eid_inv in Hrows as Hinv. destruct Hinv as [_ Hrows'].
    apply replace_eid_length in Hrows as Hlen.
    rewrite Hoff, Hind, Hgmf, <- Hlen. rewrite Hoff in Hlt.
    split; [done|]. split; [done|]. split; [done|].
    exists rows. split; [done|].
    rewrite Hrows', <- list_fmap_compose. by apply list_fmap_ext.
  - subst st'. rewrite Hoff, Hind, Hgmf. simpl.
    split; [lia|]. split; [done|]. split; [done|].
    exists []. by rewrite app_nil_r.
Qed.

Lemma payload_length (rows data : list GmfRow) :
  payload <$> rows = payload <$> data → length rows = length data.
Proof. intros Heq. by rewrite <- (length_fmap payload rows), Heq, length_fmap. Qed.

(** The whole reduction. *)
Lemma reduce_gmf self results : ∀ st0 acc0 st acc,
  reduce self (st0, acc0) results = Ok (st, acc) →
  offset st = offset st0 + Z.of_nat (sum_list (batch_rows <$> results)) ∧
  (∀ s, default [] (indices st !! (s, 0%nat)) =
          default [] (indices st0 !! (s, 0%nat)) ++
          (fst <$> site_ranges s (concat (global_ranges (offset st0) results))) ∧
        default [] (indices st !! (s, 1%nat)) =
          default [] (indices st0 !! (s, 1%nat)) ++
          (snd <$> site_ranges s (concat (global_ranges (offset st0) results)))) ∧
  ∃ rowss, default [] (gmf_data st) = default [] (gmf_data st0) ++ concat rowss ∧
           Forall2 (λ rows result, payload <$> rows = payload <$> batch_data result)
                   rowss results.
Proof.
  unfold reduce.
  induction results as [|result results IH]; intros st0 acc0 st acc; cbn [foldM].
  - intros [= <- <-]. split; [csimpl; lia|]. split; [intros s; by rewrite !app_nil_r|].
    exists []. by rewrite app_nil_r.
  - intros ([st1 acc1] & Hcall & Hrest)%bind_Ok.
    apply agg_dicts_gmf in Hcall as (Hoff & Hind & _ & rows & Hgmf & Hpay).
    apply IH in Hrest as (Hoff' & Hind' & rowss & Hgmf' & Hall).
    split.
    { rewrite fmap_cons. change (sum_list (?x :: ?l)) with (x + sum_list l)%nat. lia. }
    split.
    + intros s. destruct (Hind' s) as [-> ->]. rewrite Hind.
      destruct (record_indices_lookup (offset st0) (batch_ranges result) (indices st0) s)
        as [-> ->].
      cbn [global_ranges concat]. unfold site_ranges.
      rewrite !omap_app, !fmap_app, <- !app_assoc, Hoff. done.
    + exists (rows :: rowss). simpl. rewrite Hgmf', Hgmf, <- app_assoc.
      split; [done|]. by constructor.
Qed.
End offsets.

(** *** The global ranges of the design and the rows of the calls *)

Lemma rows_before_S k results result :
  results !! k = Some result →
  rows_before (S k) results = rows_before k results + Z.of_nat (batch_rows result).
Proof.
  intros Hk. unfold rows_before. rewrite (take_S_r _ _ _ Hk), fmap_app, sum_list_with_app.
  simpl. lia.
Qed.

Lemma rows_before_mono j k results :
  (j <= k)%nat → rows_before j results <= rows_before k results.
Proof.
  intros Hjk. unfold rows_before.
  replace (take j results) with (take j (take k results)) by (rewrite take_take; f_equal; lia).
  rewrite <- (take_drop j (take k results)) at 2.
  rewrite fmap_app, sum_list_with_app. lia.
Qed.

Lemma rows_before_all k results :
  (length results <= k)%nat →
  rows_before k results = Z.of_nat (sum_list (batch_rows <$> results)).
Proof. intros Hk. unfold rows_before. by rewrite take_ge. Qed.

Lemma rows_before_cons k result results :
  rows_before (S k) (result :: results) =
  Z.of_nat (batch_rows result) + rows_before k results.
Proof.
  unfold rows_before. rewrite firstn_cons, fmap_cons.
  change (sum_list (?x :: ?l)) with (x + sum_list l)%nat. lia.
Qed.

Lemma global_ranges_lookup results : ∀ off k ranges,
  global_ranges off results !! k = Some ranges ↔
  ∃ result, results !! k = Some result ∧
            ranges = shift_range (off + rows_before k results) <$> batch_ranges result.
Proof.
  induction results as [|r results IH]; intros off k ranges; cbn [global_ranges].
  - split; [done|]. by intros (? & ? & _).
  - destruct k as [|k].
    + change (rows_before 0 (r :: results)) with 0. rewrite Z.add_0_r. simpl. split.
      * intros [= <-]. by exists r.
      * by intros (? & [= <-] & ->).
    + rewrite rows_before_cons, Z.add_assoc. simpl. apply IH.
Qed.

Lemma concat_segment {A} (rowss : list (list A)) k rows :
  rowss !! k = Some rows →
  take (length rows) (drop (length (concat (take k rowss))) (concat rowss)) = rows.
Proof.
  intros Hk. rewrite <- (take_drop_middle _ _ _ Hk) at 2.
  rewrite concat_app, drop_app_length. simpl. by rewrite take_app_length.
Qed.

Lemma Forall2_payload_rows (rowss : list (list GmfRow)) results k :
  Forall2 (λ rows result, payload <$> rows = payload <$> batch_data result) rowss results →
  Z.of_nat (length (concat (take k rowss))) = rows_before k results.
Proof.
  intros Hall. unfold rows_before. f_equal. revert k.
  induction Hall as [|rows result rowss results Hpay Hall IH]; intros k.
  - by rewrite !take_nil.
  - destruct k as [|k]; simpl; [done|].
    rewrite length_app, IH. f_equal.
    unfold batch_rows. by rewrite <- (length_fmap payload rows), Hpay, length_fmap.
Qed.

Section ranges.
Context `{Hazardlib}.

Lemma reduce_app self sa results1 results2 :
  reduce self sa (results1 ++ results2) =
  (sa' ← reduce self sa results1; reduce self sa' results2).
Proof. apply foldM_app. Qed.

(** C2. In a reduction that starts from offset 0, every call records, for
    every site, the ranges of its batch translated by the offset that it
    finds, which is the number of the rows appended by the calls before
    it, and then advances the offset by the rows that it appends. What is
    recorded in the end are the global ranges of the design, the offset
    is the length of [gmf_data/data], and the dataset is made of the rows
    of the calls, one segment per call. Consequently, when the ranges of
    each batch are relative to the batch, every range of a call lies
    inside the segment of the call and the ranges of two calls are
    disjoint. *)
Theorem agg_dicts_global_ranges self st0 acc0 results st acc :
  offset st0 = 0 → indices st0 = ∅ → gmf_data st0 = None →
  reduce self (st0, acc0) results = Ok (st, acc) →
  (∀ k result, results !! k = Some result →
     ∃ st1 acc1 st2 acc2,
       reduce self (st0, acc0) (take k results) = Ok (st1, acc1) ∧
       agg_dicts self (st1, acc1) result = Ok (st2, acc2) ∧
       offset st1 = rows_before k results ∧
       (∀ s, default [] (indices st2 !! (s, 0%nat)) =
               default [] (indices st1 !! (s, 0%nat)) ++
               (fst <$> site_ranges s (shift_range (offset st1) <$> batch_ranges result)) ∧
             default [] (indices st2 !! (s, 1%nat)) =
               default [] (indices st1 !! (s, 1%nat)) ++
               (snd <$> site_ranges s (shift_range (offset st1) <$> batch_ranges result))) ∧
       offset st2 = offset st1 + Z.of_nat (batch_rows result)) ∧
  (∀ s, default [] (indices st !! (s, 0%nat)) =
          fst <$> site_ranges s (concat (global_ranges 0 results)) ∧
        default [] (indices st !! (s, 1%nat)) =
          snd <$> site_ranges s (concat (global_ranges 0 results))) ∧
  offset st = Z.of_nat (length (default [] (gmf_data st))) ∧
  (∃ rowss,
     default [] (gmf_data st) = concat rowss ∧
     Forall2 (λ rows result, payload <$> rows = payload <$> batch_data result)
             rowss results ∧
     ∀ k rows, rowss !! k = Some rows →
       take (length rows) (drop (Z.to_nat (rows_before k results))
                             (default [] (gmf_data st))) = rows ∧
       rows_before (S k) results = rows_before k results + Z.of_nat (length rows)) ∧
  (Forall batch_relative results →
     (∀ k ranges t, global_ranges 0 results !! k = Some ranges → t ∈ ranges →
        rows_before k results <= t.1.2 ∧ t.1.2 <= t.2 ∧
        t.2 <= rows_before (S k) results) ∧
     (∀ j k ranges_j ranges_k tj tk,
        (j < k)%nat →
        global_ranges 0 results !! j = Some ranges_j →
        global_ranges 0 results !! k = Some ranges_k →
        tj ∈ ranges_j → tk ∈ ranges_k → tj.2 <= tk.1.2)).
Proof.
  intros Hoff0 Hind0 Hgmf0 Hred.
  pose proof (reduce_gmf _ _ _ _ _ _ Hred) as (Hoff & Hind & rowss & Hgmf & Hall).
  rewrite Hoff0, Hind0, Hgmf0 in *. simpl in Hgmf.
  assert (Hwithin : Forall batch_relative results →
    ∀ k ranges t, global_ranges 0 results !! k = Some ranges → t ∈ ranges →
      rows_before k results <= t.1.2 ∧ t.1.2 <= t.2 ∧ t.2 <= rows_before (S k) results).
  { intros Hrel k ranges t (result & Hk & ->)%global_ranges_lookup Ht.
    apply list_elem_of_fmap in Ht as (t0 & -> & Ht0).
    rewrite (rows_before_S _ _ _ Hk). rewrite Forall_forall in Hrel.
    specialize (Hrel result (list_elem_of_lookup_2 _ _ _ Hk)).
    unfold batch_relative in Hrel. rewrite Forall_forall in Hrel.
    specialize (Hrel t0 Ht0). unfold shift_range. simpl. lia. }
  split; [|split; [|split; [|split]]].
  - intros k result Hk.
    rewrite <- (take_drop_middle _ _ _ Hk) in Hred.
    rewrite reduce_app in Hred.
    apply bind_Ok in Hred as ([st1 acc1] & Hpre & Hpost).
    unfold reduce in Hpost. cbn [foldM] in Hpost.
    apply bind_Ok in Hpost as ([st2 acc2] & Hcall & _).
    exists st1, acc1, st2, acc2. split; [done|]. split; [done|].
    apply reduce_gmf in Hpre as (Hoff1 & _ & _).
    apply agg_dicts_gmf in Hcall as (Hoff2 & Hind2 & _).
    split; [by rewrite Hoff1, Hoff0|]. split; [|done].
    intros s. rewrite Hind2. apply record_indices_lookup.
  - intros s. destruct (Hind s) as [-> ->]. by rewrite lookup_empty.
  - rewrite Hoff, Hgmf.
    rewrite <- (rows_before_all (length results)) by done.
    rewrite <- (Forall2_payload_rows rowss results (length results) Hall).
    rewrite take_ge; [lia|]. by rewrite (Forall2_length _ _ _ Hall).
  - exists rowss. split; [done|]. split; [done|].
    intros k rows Hk. rewrite Hgmf.
    rewrite <- (Forall2_payload_rows rowss results k Hall), Nat2Z.id.
    split; [by apply concat_segment|].
    destruct (Forall2_lookup_l _ _ _ _ _ Hall Hk) as (result & Hres & Hpay).
    rewrite (rows_before_S _ _ _ Hres), (Forall2_payload_rows rowss results k Hall).
    unfold batch_rows. by rewrite <- (length_fmap payload rows), Hpay, length_fmap.
  - intros Hrel. split; [by apply Hwithin|].
    intros j k ranges_j ranges_k tj tk Hjk Hj Hk Htj Htk.
    destruct (Hwithin Hrel j _ _ Hj Htj) as (_ & _ & Hend).
    destruct (Hwithin Hrel k _ _ Hk Htk) as (Hstart & _ & _).
    pose proof (rows_before_mono (S j) k results ltac:(lia)). lia.
Qed.
End ranges.

Lemma agg_dicts_global_ranges_witness :
  let self := example_calculator "event_based" true in
  let st0 := set_events initial_state (Some example_events) in
  let results := [example_result; example_result] in
  ∃ st acc,
    reduce (H := example_hazardlib) self (st0, ∅) results = Ok (st, acc) ∧
    offset st = 4 ∧
    default [] (indices st !! (0%nat, 0%nat)) = [0; 2] ∧
    default [] (indices st !! (0%nat, 1%nat)) = [2; 4] ∧
    (∀ j k ranges_j ranges_k tj tk,
       (j < k)%nat →
       global_ranges 0 results !! j = Some ranges_j →
       global_ranges 0 results !! k = Some ranges_k →
       tj ∈ ranges_j → tk ∈ ranges_k → tj.2 <= tk.1.2).
Proof.
  intros self st0 results.
  eexists _, _. split; [vm_compute; reflexivity|].
  split; [reflexivity|]. split; [reflexivity|]. split; [reflexivity|].
  refine (proj2 (proj2 (proj2 (proj2 (proj2
    (@agg_dicts_global_ranges example_hazardlib self st0 ∅ results _ _
       eq_refl eq_refl eq_refl eq_refl)))) _)).
  unfold results, batch_relative.
  repeat (apply Forall_cons; split); try apply Forall_nil; by vm_compute.
Defined.

(** ** The guard on the number of rows *)

(** C4, amended. The rows of [gmf_data/data] stay below 2^32. The guard
    of the block that saves the GMFs fires as soon as the offset, that is
    the number of the rows appended so far, reaches 2^32: the call that
    brings the rows to 2^32 exactly, and not beyond, is refused already,
    and below 2^32 the call goes through. A stop that is recorded may be
    the new offset, and the dataset [gmf_data/indices] holds unsigned 32
    bit integers: below 2^32 it stores the stops of the call as they are,
    whereas it would store a stop of 2^32 as 0. *)
Theorem save_gmfs_guard (st : State) (d : gmap Z Z) (result : TaskResult)
    (data rows : list GmfRow) (triples : list (nat * Z * Z)) :
  index_values d →
  has_gmdata result = true → gmfdata result = Some data →
  replace_eid data d = Ok rows → res_indices result = Some triples →
  (offset st + Z.of_nat (length data) = 4294967296 →
     save_gmfs st d result = Raise (GmfRowsError 4294967296)) ∧
  (save_gmfs st d result = Raise (GmfRowsError 4294967296)
     ↔ offset st + Z.of_nat (length data) >= 4294967296) ∧
  ((∃ st', save_gmfs st d result = Ok st')
     ↔ offset st + Z.of_nat (length data) < 4294967296) ∧
  (∀ st', save_gmfs st d result = Ok st' →
     offset st' = offset st + Z.of_nat (length data) ∧
     (0 <= offset st →
      ∀ sid start stop, (sid, start, stop) ∈ triples →
        0 <= stop <= Z.of_nat (length data) →
        to_U32 (stop + offset st) = stop + offset st)) ∧
  to_U32 4294967296 = 0.
Proof.
  intros _ Hgm Hdata Hrows Htr. unfold save_gmfs.
  rewrite Hgm, Hdata. simpl. rewrite Hrows. simpl. rewrite Htr. simpl.
  rewrite (replace_eid_length _ _ _ Hrows).
  change TWO32 with 4294967296.
  case_decide as Hge; (split; [|split; [|split; [|split; [|done]]]]).
  - done.
  - done.
  - split; [by intros [? ?]|lia].
  - done.
  - lia.
  - split; [done|lia].
  - split; [lia|by eexists].
  - intros st' [= <-]. simpl. split; [done|].
    intros Hoff sid start stop _ Hstop. unfold to_U32.
    apply Z.mod_small. change TWO32 with 4294967296. lia.
Qed.

Lemma save_gmfs_guard_witness :
  save_gmfs (set_offset initial_state 4294967294) {[ 3 := 0; 7 := 1 ]} example_result
  = Raise (GmfRowsError 4294967296).
Proof.
  refine (proj1 (save_gmfs_guard (set_offset initial_state 4294967294) {[ 3 := 0; 7 := 1 ]}
                   example_result example_rows
                   [mkGmfRow 1 0 1 []; mkGmfRow 0 0 0 []] [(0%nat, 0, 2)]
                   _ eq_refl eq_refl _ eq_refl) _).
  - apply (bool_decide_unpack _). by vm_compute.
  - vm_compute. reflexivity.
  - reflexivity.
Defined.

(** A table of 2^32 rows, which has not more than 2^32 rows, is refused:
    with 4294967294 rows stored, the call that brings two rows raises the
    error. *)
Lemma save_gmfs_guard_refuses_two32_rows :
  let st := set_offset (set_events initial_state (Some example_events)) 4294967294 in
  offset st + Z.of_nat (batch_rows example_result) = 2 ^ 32 ∧
  ¬ offset st + Z.of_nat (batch_rows example_result) > 2 ^ 32 ∧
  save_gmfs st {[ 3 := 0; 7 := 1 ]} example_result = Raise (GmfRowsError (2 ^ 32)) ∧
  agg_dicts (H := example_hazardlib) (example_calculator "event_based" true) (st, ∅)
    example_result = Raise (GmfRowsError (2 ^ 32)).
Proof.
  intros st. split; [by vm_compute|]. split; [vm_compute; by intros [=]|].
  split; by vm_compute.
Qed.

(** ** The hazard-curve update *)


Lemma bernoulli_zero_l poe : bernoulli 0 poe = poe.
Proof. unfold bernoulli. lra. Qed.

Lemma bernoulli_comm p q : bernoulli p q = bernoulli q p.
Proof. unfold bernoulli. lra. Qed.

Lemma bernoulli_assoc p q r : bernoulli (bernoulli p q) r = bernoulli p (bernoulli q r).
Proof. unfold bernoulli. lra. Qed.


Lemma broadcastable_dec n poes : Decision (broadcastable n poes).
Proof. unfold broadcastable. apply _. Defined.

Lemma update_array_spec (array poes : list R) :
  update_array array poes =
    if broadcastable_dec (length array) poes
    then Ok (imap (λ j p, bernoulli p (poe_at (length array) poes j)) array)
    else Raise BroadcastError.
Proof.
  unfold update_array, poe_at.
  destruct (decide (length poes = length array)) as [Hlen|Hlen].
  - destruct (broadcastable_dec _ _) as [_|Hno]; [|destruct Hno; by left].
    f_equal. apply list_eq. intros j.
    rewrite lookup_zip_with, list_lookup_imap.
    destruct (array !! j) as [p|] eqn:Hp; simpl; [|done].
    destruct (poes !! j) as [q|] eqn:Hq; simpl; [done|].
    apply lookup_lt_Some in Hp. apply lookup_ge_None in Hq. lia.
  - destruct (broadcastable_dec _ _) as [[Hb|Hb]|Hno].
    + done.
    + destruct poes as [|poe [|]]; try done. simpl. f_equal.
      apply list_eq. intros j. by rewrite list_lookup_fmap, list_lookup_imap.
    + destruct poes as [|poe [|]]; try done. destruct Hno. by right.
Qed.

(** Writing the view back gives the update of the cells. *)
Lemma splice_update_cells (slc : nat * nat) (poes curve : list R) :
  let v := view slc (length curve) in
  take v.1 curve
    ++ imap (λ j p, bernoulli p (poe_at (v.2 - v.1) poes j))
            (take (v.2 - v.1) (drop v.1 curve))
    ++ drop v.2 curve
  = update_cells slc poes curve.
Proof.
  intros v. unfold update_cells. fold v.
  assert (Hv : (v.1 <= v.2 <= length curve)%nat) by (unfold v, view; simpl; lia).
  set (lo := v.1) in *. set (hi := v.2) in *. clearbody lo hi. clear v.
  apply list_eq. intros i. rewrite list_lookup_imap.
  destruct (decide (i < lo)%nat) as [Hlo|Hlo].
  - rewrite lookup_app_l by (rewrite length_take; lia).
    rewrite lookup_take_lt by done.
    destruct (curve !! i); simpl; [|done]. rewrite decide_False by lia. done.
  - rewrite lookup_app_r by (rewrite length_take; lia).
    rewrite length_take, Nat.min_l by lia.
    destruct (decide (i < hi)%nat) as [Hhi|Hhi].
    + rewrite lookup_app_l by (rewrite length_imap, length_take, length_drop; lia).
      rewrite list_lookup_imap, lookup_take_lt, lookup_drop by lia.
      replace (lo + (i - lo))%nat with i by lia.
      destruct (curve !! i); simpl; [|done]. rewrite decide_True by lia. done.
    + rewrite lookup_app_r by (rewrite length_imap, length_take, length_drop; lia).
      rewrite length_imap, length_take, length_drop, Nat.min_l by lia.
      rewrite lookup_drop. replace (hi + (i - lo - (hi - lo)))%nat with i by lia.
      destruct (curve !! i); simpl; [|done]. rewrite decide_False by lia. done.
Qed.

Lemma length_update_cells slc poes curve :
  length (update_cells slc poes curve) = length curve.
Proof. unfold update_cells. by rewrite length_imap. Qed.

Lemma hcurve_update_Ok imtls (acc acc' : gmap nat ProbabilityMap) r s imt poes :
  hcurve_update imtls acc ((r, s, imt), poes) = Ok acc' ↔
  ∃ pmap slc,
    acc !! r = Some pmap ∧ slicedic imtls !! imt = Some slc ∧
    broadcastable (view_size slc (length (curve_of pmap s))) poes ∧
    acc' = updated acc r s pmap slc poes.
Proof.
  unfold hcurve_update, updated, view_size.
  destruct (acc !! r) as [pmap|]; simpl; [|split; [done|by intros (? & ? & ? & _)]].
  destruct (slicedic imtls !! imt) as [slc|]; simpl;
    [|split; [done|by intros (? & ? & _ & ? & _)]].
  fold (curve_of pmap s).
  pose proof (splice_update_cells slc poes (curve_of pmap s)) as Hsplice.
  cbn zeta in Hsplice. unfold view in *. cbn [fst snd] in *.
  set (lo := (slc.1 `min` length (curve_of pmap s))%nat) in *.
  set (hi := (lo `max` (slc.2 `min` length (curve_of pmap s)))%nat) in *.
  rewrite update_array_spec.
  assert (Hlen : length (take (hi - lo) (drop lo (curve_of pmap s))) = (hi - lo)%nat).
  { rewrite length_take, length_drop. lia. }
  rewrite Hlen.
  destruct (broadcastable_dec (hi - lo) poes) as [Hb|Hb]; simpl.
  - rewrite Hsplice. split.
    + intros [= <-]. by exists pmap, slc.
    + by intros (? & ? & [= <-] & [= <-] & _ & ->).
  - split; [done|]. by intros (? & ? & [= <-] & [= <-] & ? & _).
Qed.


Lemma curve_of_updated_eq pmap s slc poes :
  curve_of (mkProbabilityMap (shape_y pmap)
              (<[s := update_cells slc poes (curve_of pmap s)]> (curves pmap))) s
  = update_cells slc poes (curve_of pmap s).
Proof. unfold curve_of at 1. simpl. by rewrite lookup_insert_eq. Qed.

Lemma curve_of_updated_ne pmap s s' slc poes :
  s ≠ s' →
  curve_of (mkProbabilityMap (shape_y pmap)
              (<[s := update_cells slc poes (curve_of pmap s)]> (curves pmap))) s'
  = curve_of pmap s'.
Proof. intros Hne. unfold curve_of at 1 3. simpl. by rewrite lookup_insert_ne. Qed.








Section hazard_curves.
Context `{Hazardlib}.

(** The accumulator that a reduction returns is the one obtained by
    folding the contributions of the results. *)
Lemma reduce_acc self results : ∀ st0 acc0 st acc,
  reduce self (st0, acc0) results = Ok (st, acc) →
  agg_hcurves (imtls (oqparam self)) acc0 (contributions results) = Ok acc.
Proof.
  unfold reduce, agg_hcurves, contributions.
  induction results as [|result results IH]; intros st0 acc0 st acc; cbn [foldM].
  - by intros [= _ <-].
  - intros ([st1 acc1] & (d & st' & _ & _ & Hacc)%agg_dicts_Ok & Hrest)%bind_Ok.
    rewrite bind_cons, foldM_app. unfold agg_hcurves in Hacc. rewrite Hacc. simpl.
    by eapply IH.
Qed.

End hazard_curves.



(** ** The expansion of the ruptures into events *)

Lemma num_rlzs_length (rlzs_by_gsim : RlzsByGsim) :
  length (concat (snd <$> rlzs_by_gsim)) = num_rlzs rlzs_by_gsim.
Proof.
  unfold num_rlzs. induction rlzs_by_gsim as [|[gsim rlzs] rest IH]; csimpl; [done|].
  by rewrite length_app, IH.
Qed.

Lemma length_bind_const {A B} (f : A → list B) (l : list A) n :
  (∀ x, length (f x) = n) → length (l ≫= f) = (length l * n)%nat.
Proof.
  intros Hf. induction l as [|x l IH]; csimpl; [done|].
  by rewrite length_app, Hf, IH.
Qed.

Lemma length_occurrences ebr rlzs_by_gsim :
  length (occurrences ebr rlzs_by_gsim) = (n_occ ebr * num_rlzs rlzs_by_gsim)%nat.
Proof.
  unfold occurrences.
  rewrite (length_bind_const _ _ (n_occ ebr)).
  - rewrite num_rlzs_length. lia.
  - intros rlz. rewrite (length_bind_const _ _ 1); [|done]. rewrite length_seq. lia.
Qed.

(** The events of one rupture: as many as occurrences times realizations,
    numbered by the counter, which advances by one for each of them. *)
Lemma EBRupture_get_events_spec ebr rlzs_by_gsim counter evs counter' :
  EBRupture_get_events ebr rlzs_by_gsim counter = (evs, counter') →
  length evs = (n_occ ebr * num_rlzs rlzs_by_gsim)%nat ∧
  counter' = counter + Z.of_nat (length evs) ∧
  ev_eid <$> evs = (λ i, counter + Z.of_nat i) <$> seq 0 (length evs) ∧
  Forall (λ ev, ev_serial ev = serial ebr ∧ ev_grp ev = grp_id ebr) evs.
Proof.
  unfold EBRupture_get_events. intros [= <- <-].
  rewrite length_imap, length_occurrences. split; [done|]. split; [done|]. split.
  - rewrite <- length_occurrences. generalize (occurrences ebr rlzs_by_gsim) as pairs.
    intros pairs. apply list_eq. intros i.
    rewrite !list_lookup_fmap, list_lookup_imap.
    destruct (pairs !! i) as [pr|] eqn:Hp; simpl.
    + rewrite lookup_seq_lt by (by eapply lookup_lt_Some). done.
    + rewrite lookup_seq_ge by (by apply lookup_ge_None). done.
  - apply Forall_forall. intros ev [i Hi]%list_elem_of_lookup.
    rewrite list_lookup_imap in Hi.
    destruct (occurrences ebr rlzs_by_gsim !! i); simpl in Hi; [|done].
    by injection Hi as <-.
Qed.

Lemma seq_shift_eids (c : Z) (n m : nat) :
  ((λ i, c + Z.of_nat i) <$> seq 0 n) ++ ((λ i, c + Z.of_nat n + Z.of_nat i) <$> seq 0 m)
  = (λ i, c + Z.of_nat i) <$> seq 0 (n + m).
Proof.
  rewrite seq_app, fmap_app. f_equal. simpl.
  apply list_eq. intros i. rewrite !list_lookup_fmap.
  destruct (decide (i < m)%nat) as [Hi|Hi].
  - rewrite !lookup_seq_lt by done. simpl. f_equal. lia.
  - by rewrite !lookup_seq_ge by lia.
Qed.

Lemma get_events_of_spec rlzs_by_gsim ebrs : ∀ counter arrays counter',
  get_events_of ebrs rlzs_by_gsim counter = (arrays, counter') →
  Forall2 (λ ebr evs,
             length evs = (n_occ ebr * num_rlzs rlzs_by_gsim)%nat ∧
             Forall (λ ev, ev_serial ev = serial ebr ∧ ev_grp ev = grp_id ebr) evs)
          ebrs arrays ∧
  counter' = counter + Z.of_nat (length (concat arrays)) ∧
  ev_eid <$> concat arrays = (λ i, counter + Z.of_nat i) <$> seq 0 (length (concat arrays)).
Proof.
  induction ebrs as [|ebr ebrs IH]; intros counter arrays counter'; cbn [get_events_of].
  - intros [= <- <-]. simpl. split; [constructor|]. split; [lia|done].
  - destruct (EBRupture_get_events ebr rlzs_by_gsim counter) as [evs c1] eqn:Hev.
    destruct (get_events_of ebrs rlzs_by_gsim c1) as [rest c2] eqn:Hrest.
    intros [= <- <-].
    apply EBRupture_get_events_spec in Hev as (Hlen & -> & Heids & Hall).
    apply IH in Hrest as (Hrest & -> & Heids').
    split; [by constructor|]. simpl. rewrite length_app. split; [lia|].
    rewrite fmap_app, Heids, Heids'. apply seq_shift_eids.
Qed.

Lemma get_events_spec rlzs_by_gsim ebrs counter evs counter' :
  get_events ebrs rlzs_by_gsim counter = (evs, counter') →
  ∃ arrays,
    evs = concat arrays ∧
    Forall2 (λ ebr evs,
               length evs = (n_occ ebr * num_rlzs rlzs_by_gsim)%nat ∧
               Forall (λ ev, ev_serial ev = serial ebr ∧ ev_grp ev = grp_id ebr) evs)
            ebrs arrays ∧
    counter' = counter + Z.of_nat (length evs) ∧
    ev_eid <$> evs = (λ i, counter + Z.of_nat i) <$> seq 0 (length evs).
Proof.
  unfold get_events. case_decide as Hnil.
  - intros [= <- <-]. exists []. subst ebrs. simpl. split; [done|].
    split; [constructor|]. split; [lia|done].
  - destruct (get_events_of ebrs rlzs_by_gsim counter) as [arrays c] eqn:Hof.
    intros [= <- <-]. exists arrays. split; [done|].
    by apply get_events_of_spec in Hof.
Qed.

(** ** [save_ruptures] *)

Section save_ruptures_check.
Context `{Hazardlib}.

(** C7. For a list of ruptures that is not empty, [save_ruptures]
    compares the event IDs computed from the ruptures, the concatenation
    of [rup.get_eids(num_rlzs)], with the column [eid] of the events into
    which the ruptures expand. When they differ it raises the assertion
    error, whatever the difference; when they agree it appends the events
    to the events dataset (and the ruptures to theirs) and returns the
    events. *)
Theorem save_ruptures_spec self st rup0 rest rlzs_by_gsim :
  rlzs_by_gsim_grp self !! grp_id rup0 = Some rlzs_by_gsim →
  let rups := rup0 :: rest in
  let eids := concat ((λ rup, get_eids rup (num_rlzs rlzs_by_gsim)) <$> rups) in
  let evs := (get_events rups rlzs_by_gsim (eid_counter st)).1 in
  (eids = ev_eid <$> evs →
     ∃ st', save_ruptures self st rups = Ok (st', evs) ∧
            events st' = Some (default [] (events st) ++ evs) ∧
            ruptures st' = ruptures st ++ rups) ∧
  (eids ≠ ev_eid <$> evs →
     save_ruptures self st rups = Raise (EidMismatch eids (ev_eid <$> evs))).
Proof.
  intros Hgrp rups eids evs. unfold save_ruptures.
  change (match rups with [] => ?a | rup :: _ => @?b rup end) with (b rup0).
  cbv beta. rewrite Hgrp. cbn [getitem mbind res_bind set_ruptures eid_counter].
  subst evs. destruct (get_events rups rlzs_by_gsim (eid_counter st)) as [evs c].
  cbn [fst]. fold eids. split; intros Heq.
  - rewrite decide_True by done. by eexists.
  - by rewrite decide_False by done.
Qed.
End save_ruptures_check.

Lemma save_ruptures_spec_witness :
  let self := example_calculator "event_based" true in
  let rups := [mkEBRupture 0 0 3] in
  ∃ st', save_ruptures (H := example_hazardlib) self initial_state rups
           = Ok (st', (get_events rups [("gsim", [0; 1]%nat)] 0).1) ∧
         events st' = Some (default [] None ++ (get_events rups [("gsim", [0; 1]%nat)] 0).1) ∧
         ruptures st' = [] ++ rups.
Proof.
  intros self rups.
  apply (proj1 (@save_ruptures_spec example_hazardlib self initial_state
                  (mkEBRupture 0 0 3) [] [("gsim", [0; 1]%nat)] eq_refl)).
  vm_compute. reflexivity.
Defined.

Section event_count.
Context `{Hazardlib}.

Lemma save_ruptures_events self st rups st' evs rlzs_by_gsim :
  Forall (λ rup, rlzs_by_gsim_grp self !! grp_id rup = Some rlzs_by_gsim) rups →
  save_ruptures self st rups = Ok (st', evs) →
  (∃ arrays,
     evs = concat arrays ∧
     Forall2 (λ rup arr,
                length arr = (n_occ rup * num_rlzs rlzs_by_gsim)%nat ∧
                Forall (λ ev, ev_serial ev = serial rup ∧ ev_grp ev = grp_id rup) arr)
             rups arrays) ∧
  default [] (events st') = default [] (events st) ++ evs ∧
  eid_counter st' = eid_counter st + Z.of_nat (length evs) ∧
  ev_eid <$> evs = (λ i, eid_counter st + Z.of_nat i) <$> seq 0 (length evs).
Proof.
  intros Hgrp [(-> & -> & ->)|(rbg & c & Hne & Hhead & Hev & _ & ->)]%save_ruptures_Ok.
  - split; [exists []; by split; [|constructor]|]. rewrite app_nil_r.
    split; [done|]. split; [simpl; lia|done].
  - destruct rups as [|rup0 rest]; [done|]. simpl in Hhead.
    apply Forall_cons in Hgrp as Hg. destruct Hg as [Hg _].
    assert (rbg = rlzs_by_gsim) as -> by congruence.
    apply get_events_spec in Hev as (arrays & -> & Hall & -> & Heids).
    split; [by exists arrays|]. done.
Qed.

(** C6. A rupture that [save_ruptures] persists contributes to the events
    dataset as many events as its [n_occ] times the number of the
    realizations of its group, the ruptures of the list being of one
    group (or of groups with the same realizations); the events of the
    list are the concatenation of the contributions. In particular one
    rupture with [n_occ = 3] and two realizations gives six events, and
    their IDs are 0, ..., 5 when the counter of the expander is at 0. *)
Theorem save_ruptures_event_count :
  (∀ self st rups st' evs rlzs_by_gsim,
     Forall (λ rup, rlzs_by_gsim_grp self !! grp_id rup = Some rlzs_by_gsim) rups →
     save_ruptures self st rups = Ok (st', evs) →
     ∃ arrays,
       evs = concat arrays ∧
       default [] (events st') = default [] (events st) ++ evs ∧
       Forall2 (λ rup arr,
                  length arr = (n_occ rup * num_rlzs rlzs_by_gsim)%nat ∧
                  Forall (λ ev, ev_serial ev = serial rup ∧ ev_grp ev = grp_id rup) arr)
               rups arrays) ∧
  (∀ self st st' evs rup rlzs_by_gsim,
     n_occ rup = 3%nat →
     rlzs_by_gsim_grp self !! grp_id rup = Some rlzs_by_gsim →
     num_rlzs rlzs_by_gsim = 2%nat →
     eid_counter st = 0 →
     save_ruptures self st [rup] = Ok (st', evs) →
     length evs = 6%nat ∧ ev_eid <$> evs = [0; 1; 2; 3; 4; 5]).
Proof.
  split.
  - intros self st rups st' evs rbg Hgrp Hsave.
    destruct (save_ruptures_events _ _ _ _ _ _ Hgrp Hsave)
      as ((arrays & -> & Hall) & Hevs & _).
    by exists arrays.
  - intros self st st' evs rup rbg Hocc Hgrp Hnum Hc Hsave.
    destruct (save_ruptures_events self st [rup] st' evs rbg) as
      ((arrays & -> & Hall) & _ & _ & Heids); [by repeat constructor|done|].
    apply Forall2_cons_inv_l in Hall as (arr & rest & [Hlen _] & ->%Forall2_nil_inv_l & ->).
    rewrite Hocc, Hnum in Hlen. simpl in *. rewrite app_nil_r in *.
    split; [done|]. rewrite Heids, Hlen, Hc. done.
Qed.
End event_count.

Lemma save_ruptures_event_count_witness :
  let self := example_calculator "event_based" true in
  ∃ st' evs,
    save_ruptures (H := example_hazardlib) self initial_state [mkEBRupture 0 0 3]
      = Ok (st', evs) ∧
    length evs = 6%nat ∧ ev_eid <$> evs = [0; 1; 2; 3; 4; 5] ∧
    ∃ arrays, evs = concat arrays ∧
      default [] (events st') = default [] (events initial_state) ++ evs ∧
      Forall2 (λ rup arr,
                 length arr = (n_occ rup * num_rlzs [("gsim", [0; 1]%nat)])%nat ∧
                 Forall (λ ev, ev_serial ev = serial rup ∧ ev_grp ev = grp_id rup) arr)
              [mkEBRupture 0 0 3] arrays.
Proof.
  intros self.
  assert (∃ st' evs, save_ruptures (H := example_hazardlib) self initial_state
                       [mkEBRupture 0 0 3] = Ok (st', evs)) as (st' & evs & Hsave).
  { eexists _, _. vm_compute. reflexivity. }
  exists st', evs. split; [done|].
  destruct (proj2 (@save_ruptures_event_count example_hazardlib) self initial_state st' evs
              (mkEBRupture 0 0 3) [("gsim", [0; 1]%nat)] eq_refl eq_refl eq_refl eq_refl Hsave)
    as [Hlen Heids].
  split; [done|]. split; [done|].
  apply (proj1 (@save_ruptures_event_count example_hazardlib) self initial_state
           [mkEBRupture 0 0 3] st' evs [("gsim", [0; 1]%nat)]); [|done].
  by repeat constructor.
Defined.

(** ** [from_sources]: the events dataset *)

#[global] Instance event_le_total : Total event_le.
Proof.
  intros [e1 s1 r1 g1] [e2 s2 r2 g2]. unfold event_le. simpl. lia.
Qed.

#[global] Instance event_le_trans : Transitive event_le.
Proof.
  intros [e1 s1 r1 g1] [e2 s2 r2 g2] [e3 s3 r3 g3]. unfold event_le. simpl. lia.
Qed.

Lemma event_le_eid e1 e2 : event_le e1 e2 → ev_eid e1 <= ev_eid e2.
Proof. unfold event_le. lia. Qed.

Lemma Sorted_of_nat_seq s n : Sorted Z.le (Z.of_nat <$> seq s n).
Proof.
  revert s. induction n as [|n IH]; intros s; simpl; constructor; [apply IH|].
  destruct n; simpl; constructor. lia.
Qed.

#[global] Instance Z_le_antisymm : AntiSymm (=) Z.le.
Proof. intros x y ??. lia. Qed.

(** Sorting by [eid]: the same records, in ascending order of [eid]. *)
Lemma sort_by_eid_spec (evs : list Event) :
  sort_by_eid evs ≡ₚ evs ∧ Sorted Z.le (ev_eid <$> sort_by_eid evs).
Proof.
  unfold sort_by_eid. split; [apply merge_sort_Permutation|].
  apply (Sorted_fmap _ event_le); [apply event_le_eid|].
  apply Sorted_merge_sort, _.
Qed.

(** When the IDs are 0, ..., n-1 in some order, they are 0, ..., n-1 in
    this order after the sort. *)
Lemma sort_by_eid_dense (evs : list Event) :
  ev_eid <$> evs ≡ₚ Z.of_nat <$> seq 0 (length evs) →
  ev_eid <$> sort_by_eid evs = Z.of_nat <$> seq 0 (length evs).
Proof.
  intros Hperm. destruct (sort_by_eid_spec evs) as [Hp Hs].
  apply (Sorted_unique Z.le); [done|apply Sorted_of_nat_seq|].
  by rewrite Hp.
Qed.

Section from_sources_store.
Context `{Hazardlib}.

Lemma save_ruptures_counter self st rups st' evs :
  save_ruptures self st rups = Ok (st', evs) →
  default [] (events st') = default [] (events st) ++ evs ∧
  eid_counter st' = eid_counter st + Z.of_nat (length evs) ∧
  ev_eid <$> evs = (λ i, eid_counter st + Z.of_nat i) <$> seq 0 (length evs).
Proof.
  intros [(-> & -> & ->)|(rbg & c & Hne & Hhead & Hev & _ & ->)]%save_ruptures_Ok.
  - rewrite app_nil_r. split; [done|]. split; [simpl; lia|done].
  - by apply get_events_spec in Hev as (arrays & -> & Hall & -> & Heids).
Qed.

(** The events that [_store_ruptures] appends are numbered by the counter,
    one after the other. *)
Lemma store_ruptures_counter self srcs_by_grp st st1 :
  _store_ruptures self st srcs_by_grp = Ok st1 →
  ∃ produced,
    default [] (events st1) = default [] (events st) ++ produced ∧
    eid_counter st1 = eid_counter st + Z.of_nat (length produced) ∧
    ev_eid <$> produced = (λ i, eid_counter st + Z.of_nat i) <$> seq 0 (length produced).
Proof.
  unfold _store_ruptures. generalize (concat (snd <$> srcs_by_grp)) as srcs.
  intros srcs. revert st.
  induction srcs as [|src srcs IH]; intros st; cbn [foldM].
  - intros [= <-]. exists []. rewrite app_nil_r. split; [done|]. split; [simpl; lia|done].
  - intros (st2 & Hsrc & Hrest)%bind_Ok.
    apply bind_Ok in Hsrc as (ebrs & _ & ([st3 evs] & Hsave & [= ->])%bind_Ok).
    apply save_ruptures_counter in Hsave as (Hev & Hc & Heids).
    apply IH in Hrest as (produced & Hev' & Hc' & Heids').
    exists (evs ++ produced). rewrite Hev', Hev, <- app_assoc. split; [done|].
    rewrite length_app. split; [lia|].
    rewrite fmap_app, Heids, Heids', Hc. apply seq_shift_eids.
Qed.

(** C5. When [from_sources] has stored the events, the events dataset
    holds the events that were stored by [_store_ruptures], all of them
    and no other, in ascending order of [eid]. For a run that starts
    without events and with the counter of the expander at 0, the IDs of
    the dataset are 0, 1, ..., n-1: they are unique and leave no gap. *)
Theorem from_sources_events self st srcs_by_grp st' :
  from_sources self st srcs_by_grp = Ok st' →
  ∃ st1 produced evs,
    _store_ruptures self st srcs_by_grp = Ok st1 ∧
    events st1 = Some (default [] (events st) ++ produced) ∧
    events st' = Some evs ∧
    evs = sort_by_eid (default [] (events st) ++ produced) ∧
    evs ≡ₚ default [] (events st) ++ produced ∧
    Sorted Z.le (ev_eid <$> evs) ∧
    (events st = None → eid_counter st = 0 →
       ev_eid <$> evs = Z.of_nat <$> seq 0 (length evs) ∧ NoDup (ev_eid <$> evs)).
Proof.
  unfold from_sources.
  intros (st1 & Hstore & (stored & Hst1%getitem_Ok & [= <-])%bind_Ok)%bind_Ok.
  destruct (store_ruptures_counter _ _ _ _ Hstore) as (produced & Hev & Hc & Heids).
  rewrite Hst1 in Hev. simpl in Hev. subst stored.
  destruct (sort_by_eid_spec (default [] (events st) ++ produced)) as [Hperm Hsorted].
  exists st1, produced, (sort_by_eid (default [] (events st) ++ produced)).
  split; [done|]. split; [done|]. split; [done|]. split; [done|].
  split; [done|]. split; [done|].
  intros Hnone Hzero. rewrite Hnone in *. simpl in *. rewrite Hzero in Heids.
  assert (Hdense : ev_eid <$> sort_by_eid produced = Z.of_nat <$> seq 0 (length produced)).
  { apply sort_by_eid_dense. by rewrite Heids. }
  rewrite Hperm at 2. rewrite Hdense. split; [done|].
  apply NoDup_fmap; [apply _|apply NoDup_seq].
Qed.
End from_sources_store.

Lemma from_sources_events_witness :
  let self := example_calculator "event_based" true in
  ∃ st' evs,
    from_sources (H := example_hazardlib) self initial_state [(0%nat, example_sources)]
      = Ok st' ∧
    events st' = Some evs ∧
    ev_eid <$> evs = Z.of_nat <$> seq 0 (length evs) ∧ length evs = 8%nat.
Proof.
  intros self.
  assert (∃ st', from_sources (H := example_hazardlib) self initial_state
                   [(0%nat, example_sources)] = Ok st') as [st' Hst'].
  { eexists. vm_compute. reflexivity. }
  destruct (@from_sources_events example_hazardlib self initial_state
              [(0%nat, example_sources)] st' Hst')
    as (st1 & produced & evs & _ & _ & Hevs & _ & _ & _ & Hdense).
  exists st', evs. split; [done|]. split; [done|].
  destruct (Hdense eq_refl eq_refl) as [Heids _]. split; [done|].
  assert (events st' = Some
            [mkEvent 0 0 0 0; mkEvent 1 0 0 0; mkEvent 2 0 0 0; mkEvent 3 0 1 0;
             mkEvent 4 0 1 0; mkEvent 5 0 1 0; mkEvent 6 6 0 0; mkEvent 7 6 1 0]) as Hc.
  { assert (Ok st' = from_sources (H := example_hazardlib) self initial_state
                       [(0%nat, example_sources)]) as Heq by done.
    vm_compute in Heq. by injection Heq as ->. }
  rewrite Hevs in Hc. by injection Hc as ->.
Defined.

(** ** [execute]: the run without ground motion fields *)

Lemma bind_Raise {A B} (m : res A) (f : A → res B) e :
  m ≫= f = Raise e → m = Raise e ∨ ∃ a, m = Ok a ∧ f a = Raise e.
Proof.
  destruct m as [a|e']; intros He.
  - right. exists a. split; [done|exact He].
  - left. cbn in He. by injection He as ->.
Qed.

Lemma getitem_Raise {A} name (o : option A) e :
  getitem name o = Raise e → e = KeyError name.
Proof. destruct o; simpl; congruence. Qed.

Lemma foldM_Raise {A B} (f : A → B → res A) e l : ∀ a,
  foldM f a l = Raise e → ∃ a' b, b ∈ l ∧ f a' b = Raise e.
Proof.
  induction l as [|b l IH]; intros a; simpl; [done|].
  intros [Hb|(a1 & _ & (a' & b' & Hin & Hf)%IH)]%bind_Raise.
  - exists a, b. split; [left|done].
  - exists a', b'. split; [by right|done].
Qed.

Lemma forM_Raise {A B} (f : A → res B) e l :
  forM f l = Raise e → ∃ a, a ∈ l ∧ f a = Raise e.
Proof.
  induction l as [|a l IH]; simpl; [done|].
  intros [Ha|(b & _ & [(a' & Hin & Hf)%IH|(bs & _ & ?)]%bind_Raise)]%bind_Raise.
  - exists a. split; [left|done].
  - exists a'. split; [by right|done].
  - done.
Qed.

(** Repeated steps of the proofs that an error does not come from a given
    place: take a raising sequence apart. *)
Ltac raise_inv :=
  repeat match goal with
    | H : _ ≫= _ = Raise _ |- _ =>
        apply bind_Raise in H as [H|(? & ? & H)]
    | H : getitem _ _ = Raise _ |- _ => apply getitem_Raise in H
    | H : foldM _ _ _ = Raise _ |- _ => apply foldM_Raise in H as (? & ? & ? & H)
    | H : forM _ _ = Raise _ |- _ => apply forM_Raise in H as (? & ? & H)
    | H : Raise _ = Raise _ |- _ => injection H as H
    | H : Ok _ = Raise _ |- _ => discriminate H
    | H : (if ?c then _ else _) = Raise _ |- _ => destruct c
    | H : (let '(_, _) := ?p in _) = Raise _ |- _ => destruct p
    | H : match ?o with Some _ => _ | None => _ end = Raise _ |- _ => destruct o
    end.

Lemma assign_eid_Raise data col e : assign_eid data col = Raise e → e ≠ NoGMFsError.
Proof.
  revert col. induction data as [|row data IH]; intros [|x col]; simpl; intros He;
    raise_inv; try congruence. by eapply IH.
Qed.

Lemma replace_eid_Raise data d e : replace_eid data d = Raise e → e ≠ NoGMFsError.
Proof.
  unfold replace_eid, take_indices. intros He. raise_inv; try congruence.
  by eapply assign_eid_Raise.
Qed.

Lemma agg_hcurves_Raise imtls acc cs e : agg_hcurves imtls acc cs = Raise e → e ≠ NoGMFsError.
Proof.
  unfold agg_hcurves. intros He. raise_inv.
  unfold hcurve_update in He. destruct x0 as [[[r s] imt] poes].
  raise_inv; try congruence.
  unfold update_array in He. raise_inv. destruct poes as [|? [|]]; congruence.
Qed.

Lemma check_overflow_Raise self st e : check_overflow self st = Raise e → e ≠ NoGMFsError.
Proof. rewrite check_overflow_unfold. repeat case_decide; congruence. Qed.

Section execute_errors.
Context `{Hazardlib}.

Lemma save_ruptures_Raise self st rups e :
  save_ruptures self st rups = Raise e → e ≠ NoGMFsError.
Proof.
  unfold save_ruptures. destruct rups as [|rup0 rest]; [done|].
  intros He. raise_inv; congruence.
Qed.

Lemma agg_dicts_Raise self sa result e :
  agg_dicts self sa result = Raise e → e ≠ NoGMFsError.
Proof.
  unfold agg_dicts. destruct sa as [st acc]. intros He. raise_inv.
  - unfold event_indices, eid2idx in He. raise_inv; try congruence.
    destruct (snd <$> ruptures_by_grp result) as [|rups [|]]; try congruence.
    raise_inv. by eapply save_ruptures_Raise.
  - unfold save_gmfs in He. raise_inv; try congruence.
    by eapply replace_eid_Raise.
  - by eapply agg_hcurves_Raise.
Qed.

Lemma from_sources_Raise self st srcs_by_grp e :
  from_sources self st srcs_by_grp = Raise e → e ≠ NoGMFsError.
Proof.
  unfold from_sources, _store_ruptures. intros He. raise_inv; try congruence.
  by eapply save_ruptures_Raise.
Qed.

Lemma execute_reduce_Raise self st srcs_by_grp results e :
  execute_reduce self st srcs_by_grp results = Raise e → e ≠ NoGMFsError.
Proof.
  unfold execute_reduce, reduce. intros He. raise_inv.
  all: repeat match goal with
         | H : match ?n with O => _ | S _ => _ end = Raise _ |- _ => destruct n
         end; raise_inv; try congruence.
  all: eauto using from_sources_Raise, agg_dicts_Raise, check_overflow_Raise.
Qed.
End execute_errors.

Lemma record_indices_empty off triples : ∀ ind,
  record_indices off ind triples = ∅ ↔ ind = ∅ ∧ triples = [].
Proof.
  unfold record_indices.
  induction triples as [|[[s start] stop] triples IH]; intros ind; cbn [foldl].
  - split; [by intros ->|by intros [-> _]].
  - rewrite IH. unfold indices_append. split; [|by intros [_ ?]].
    intros [Hne _]. by apply insert_non_empty in Hne.
Qed.

Section execute_tail.
Context `{Hazardlib}.

Lemma reduce_indices_empty self results : ∀ st0 acc0 st acc,
  reduce self (st0, acc0) results = Ok (st, acc) →
  indices st = ∅ ↔ indices st0 = ∅ ∧ Forall (λ result, batch_ranges result = []) results.
Proof.
  unfold reduce.
  induction results as [|result results IH]; intros st0 acc0 st acc; cbn [foldM].
  - intros [= <- <-]. split; [by split|by intros [? _]].
  - intros ([st1 acc1] & Hcall & Hrest)%bind_Ok.
    apply agg_dicts_gmf in Hcall as (_ & Hind & _).
    rewrite (IH _ _ _ _ Hrest), Hind, record_indices_empty, Forall_cons. tauto.
Qed.

Lemma from_sources_indices self st srcs_by_grp st' :
  from_sources self st srcs_by_grp = Ok st' → indices st' = indices st.
Proof.
  unfold from_sources, _store_ruptures.
  intros (st1 & Hstore & (evs & _ & [= <-])%bind_Ok)%bind_Ok. simpl.
  revert Hstore.
  apply (foldM_Ok_inv _ (λ s, indices s = indices st)); [|done].
  intros s src s' Hs (ebrs & _ & ([s2 evs'] & Hsave & [= <-])%bind_Ok)%bind_Ok.
  apply save_ruptures_Ok in Hsave as [(_ & -> & _)|(? & ? & _ & _ & _ & _ & ->)]; done.
Qed.

Lemma execute_reduce_indices self st srcs_by_grp results st' acc :
  execute_reduce self st srcs_by_grp results = Ok (st', Some acc) →
  indices st' = ∅ ↔ Forall (λ result, batch_ranges result = []) results.
Proof.
  unfold execute_reduce.
  intros ([st1 proceed] & Hinit & Hrest)%bind_Ok.
  destruct proceed; [|done].
  apply bind_Ok in Hrest as ([st2 acc2] & Hred & (? & _ & [= <- <-])%bind_Ok).
  rewrite (reduce_indices_empty _ _ _ _ _ _ Hred). simpl.
  assert (indices st1 = ∅) as ->; [|tauto].
  destruct (hazard_calculation_id (oqparam self)) as [[|n]|].
  - apply bind_Ok in Hinit as (st0 & Hfrom%from_sources_indices & [= <- _]).
    by rewrite Hfrom.
  - destruct (ground_motion_fields (oqparam self)); [|done]. by injection Hinit as <-.
  - apply bind_Ok in Hinit as (st0 & Hfrom%from_sources_indices & [= <- _]).
    by rewrite Hfrom.
Qed.

(** C8. [execute] raises the error 'No GMFs were generated' if and only if
    the reduction and the check of the overflow went through, no index
    range was accumulated, the ground motion fields were requested and
    the calculation mode does not contain 'ucerf'. No index range is
    accumulated exactly when no result brought one. With 'ucerf' in the
    calculation mode the empty result is returned silently; with index
    ranges, or without the request of ground motion fields, the error is
    not raised. *)
Theorem execute_no_gmfs self st srcs_by_grp results :
  (execute self st srcs_by_grp results = Raise NoGMFsError ↔
     ∃ st' acc,
       execute_reduce self st srcs_by_grp results = Ok (st', Some acc) ∧
       indices st' = ∅ ∧
       ground_motion_fields (oqparam self) = true ∧
       str_in "ucerf" (calculation_mode (oqparam self)) = false) ∧
  (∀ st' acc,
     execute_reduce self st srcs_by_grp results = Ok (st', Some acc) →
     (indices st' = ∅ ↔ Forall (λ result, batch_ranges result = []) results) ∧
     (indices st' = ∅ → ground_motion_fields (oqparam self) = true →
      str_in "ucerf" (calculation_mode (oqparam self)) = true →
      execute self st srcs_by_grp results = Ok (st', acc)) ∧
     (indices st' = ∅ → ground_motion_fields (oqparam self) = false →
      execute self st srcs_by_grp results = Ok (st', acc)) ∧
     (indices st' ≠ ∅ →
      execute self st srcs_by_grp results = Ok (save_indices self st', acc))) ∧
  (ground_motion_fields (oqparam self) = false →
   execute self st srcs_by_grp results ≠ Raise NoGMFsError).
Proof.
  assert (Hiff : execute self st srcs_by_grp results = Raise NoGMFsError ↔
     ∃ st' acc,
       execute_reduce self st srcs_by_grp results = Ok (st', Some acc) ∧
       indices st' = ∅ ∧
       ground_motion_fields (oqparam self) = true ∧
       str_in "ucerf" (calculation_mode (oqparam self)) = false).
  { unfold execute.
    destruct (execute_reduce self st srcs_by_grp results) as [[st' [acc|]]|e] eqn:Hred;
      cbn [mbind res_bind].
    - case_decide as Hind.
      + split; [done|]. intros (? & ? & [= <- <-] & ? & _). done.
      + destruct (ground_motion_fields (oqparam self)),
          (str_in "ucerf" (calculation_mode (oqparam self))); simpl.
        all: split; [try done|by intros (? & ? & _ & _ & ? & ?)].
        intros _. by exists st', acc.
    - split; [done|]. by intros (? & ? & ? & _).
    - split; [|by intros (? & ? & ? & _)].
      intros [= ->]. by apply execute_reduce_Raise in Hred. }
  split; [done|]. split.
  - intros st' acc Hred. split; [by eapply execute_reduce_indices|].
    unfold execute. rewrite Hred. cbn [mbind res_bind].
    split; [|split].
    + intros Hind -> ->. by rewrite decide_False by (intros Hn; by apply Hn).
    + intros Hind ->. by rewrite decide_False by (intros Hn; by apply Hn).
    + intros Hind. by rewrite decide_True.
  - intros Hgmf. rewrite Hiff. intros (? & ? & _ & _ & ? & _). congruence.
Qed.
End execute_tail.

Lemma execute_no_gmfs_witness :
  execute (H := example_hazardlib) (example_calculator "event_based" true) initial_state
    [(0%nat, example_sources)] [] = Raise NoGMFsError ∧
  ∃ st' acc,
    execute (H := example_hazardlib) (example_calculator "ucerf_hazard" true) initial_state
      [(0%nat, example_sources)] [] = Ok (st', acc).
Proof.
  split.
  - apply (proj1 (@execute_no_gmfs example_hazardlib _ _ _ _)).
    eexists _, _. split; [vm_compute; reflexivity|]. by repeat split.
  - assert (∃ st' acc,
              execute_reduce (H := example_hazardlib) (example_calculator "ucerf_hazard" true)
                initial_state [(0%nat, example_sources)] [] = Ok (st', Some acc) ∧
              indices st' = ∅) as (st' & acc & Hred & Hind).
    { eexists _, _. split; [vm_compute; reflexivity|done]. }
    exists st', acc.
    apply (proj1 (proj2 (proj1 (proj2
             (@execute_no_gmfs example_hazardlib _ _ _ _)) st' acc Hred)));
      [done|reflexivity|reflexivity].
Defined.

(** ** [build_ruptures] *)

Lemma rupture_count_app b1 b2 :
  rupture_count (b1 ++ b2) = rupture_count b1 + rupture_count b2.
Proof.
  unfold rupture_count. induction b1 as [|src b1 IH]; simpl; [done|]. rewrite IH. lia.
Qed.

Lemma rupture_count_nonneg b : 0 <= rupture_count b.
Proof. unfold rupture_count. induction b as [|src b IH]; simpl; lia. Qed.

Lemma prefix_snoc_inv {A} (p l : list A) x :
  p `prefix_of` l ++ [x] → p = l ++ [x] ∨ p `prefix_of` l.
Proof.
  intros [k Hk]. destruct k as [|y k _] using rev_ind.
  - left. by rewrite app_nil_r in Hk.
  - right. rewrite app_assoc in Hk. apply app_inj_tail in Hk as [-> _]. by exists k.
Qed.

Section build_ruptures_generator.
Context `{Hazardlib}.

Lemma rupture_count_sampled src :
  rupture_count [sampled src] = Z.of_nat (length (sample_ruptures src)).
Proof. unfold rupture_count, sampled. simpl. lia. Qed.

Lemma gen_run_AfterYield fuel budget srcs acc n :
  (gen_run fuel budget (mkGenerator AfterYield srcs acc n)).1 =
  (gen_run fuel budget (mkGenerator AtStart srcs [] 0)).1.
Proof. by destruct fuel. Qed.

(** The generator yields the batches of the recursion on the sources. *)
Lemma gen_run_loop budget srcs : ∀ fuel acc n,
  (length srcs < fuel)%nat →
  (gen_run fuel budget (mkGenerator AtStart srcs acc n)).1 =
  build_ruptures_loop budget srcs acc n.
Proof.
  induction srcs as [|src srcs IH]; intros [|fuel] acc n Hfuel; simpl in Hfuel; try lia.
  - cbn [gen_run gen_next point todo acc_cell counter_n gen_loop build_ruptures_loop].
    case_decide; [|done]. by destruct fuel.
  - specialize (IH (S fuel) (acc ++ [set_eb_ruptures src (sample_ruptures src)])
                  (n + Z.of_nat (length (sample_ruptures src))) ltac:(lia)) as IHopen.
    cbn [gen_run gen_next point todo acc_cell counter_n gen_loop build_ruptures_loop] in *.
    case_decide as Hflush; [|exact IHopen].
    specialize (IH fuel [] 0 ltac:(lia)).
    rewrite <- IH, <- (gen_run_AfterYield fuel budget srcs
                         (acc ++ [set_eb_ruptures src (sample_ruptures src)])
                         (n + Z.of_nat (length (sample_ruptures src)))).
    by destruct (gen_run fuel budget (mkGenerator AfterYield srcs _ _)).
Qed.

Lemma build_ruptures_eq srcs budget :
  build_ruptures srcs budget = build_ruptures_loop budget srcs [] 0.
Proof. unfold build_ruptures. apply gen_run_loop. lia. Qed.

Lemma build_ruptures_loop_spec budget srcs : ∀ acc n,
  n = rupture_count acc →
  (∀ p, p `prefix_of` acc → p ≠ [] → rupture_count p <= budget) →
  let batches := build_ruptures_loop budget srcs acc n in
  concat batches = acc ++ (sampled <$> srcs) ∧
  Forall (λ b, b ≠ []) batches ∧
  (∀ k b, batches !! k = Some b → (S k < length batches)%nat → rupture_count b > budget) ∧
  (∀ b p, b ∈ batches → p `prefix_of` b → p ≠ [] → p ≠ b → rupture_count p <= budget).
Proof.
  induction srcs as [|src srcs IH]; intros acc n Hn Hopen; cbn [build_ruptures_loop].
  - case_decide as Hacc; cbn zeta.
    + simpl. rewrite !app_nil_r. split; [done|]. split; [by repeat constructor|].
      split; [intros k b _ Hk; simpl in Hk; lia|].
      intros b p ->%list_elem_of_singleton Hp Hne _. by apply Hopen.
    + subst acc. simpl. split; [done|]. split; [constructor|].
      split; [intros k b Hk; by rewrite lookup_nil in Hk|].
      intros b p Hb. by apply elem_of_nil in Hb.
  - fold (sampled src).
    assert (Hcount : n + Z.of_nat (length (sample_ruptures src))
                     = rupture_count (acc ++ [sampled src])).
    { by rewrite rupture_count_app, rupture_count_sampled, Hn. }
    case_decide as Hflush; cbn zeta.
    + destruct (IH [] 0) as (Hcat & Hne & Hcnt & Hmin); [done| |].
      { intros p ->%prefix_nil_inv. done. }
      split; [simpl; by rewrite Hcat, <- app_assoc|].
      split; [constructor; [by destruct acc|done]|].
      split.
      * intros [|k] b Hb Hk; simpl in Hb, Hk.
        -- injection Hb as <-. by rewrite <- Hcount.
        -- apply (Hcnt k); [done|lia].
      * intros b p [->|Hb]%elem_of_cons Hp Hpne Hpb.
        -- apply prefix_snoc_inv in Hp as [->|Hp]; [done|]. by apply Hopen.
        -- by apply (Hmin b).
    + destruct (IH (acc ++ [sampled src]) (n + Z.of_nat (length (sample_ruptures src))))
        as (Hcat & Hrest); [done| |].
      { intros p [->|Hp]%prefix_snoc_inv Hpne; [|by apply Hopen].
        rewrite <- Hcount. lia. }
      split; [|done]. by rewrite Hcat, <- app_assoc.
Qed.
End build_ruptures_generator.

Section batches.
Context `{Hazardlib}.

Lemma build_ruptures_loop_no_ruptures budget srcs : ∀ acc,
  0 <= budget → Forall (λ src, sample_ruptures src = []) srcs →
  build_ruptures_loop budget srcs acc 0 =
    if decide (acc ++ (sampled <$> srcs) ≠ []) then [acc ++ (sampled <$> srcs)] else [].
Proof.
  induction srcs as [|src srcs IH]; intros acc Hb Hall; cbn [build_ruptures_loop].
  - simpl. rewrite app_nil_r. done.
  - apply Forall_cons in Hall as [Hsrc Hall]. fold (sampled src).
    rewrite Hsrc. simpl length. rewrite decide_False by lia.
    rewrite IH by done. rewrite fmap_cons.
    by rewrite <- app_assoc.
Qed.

(** C9, amended. [build_ruptures] delivers every source, with its
    ruptures attached, in the order of the input and in batches none of
    which is empty (a batch is what [acc] holds when it is yielded). A batch is closed as soon as its number of ruptures
    exceeds [ruptures_per_block]: every batch but the last has more
    ruptures than the budget, and no batch has a proper beginning with
    more ruptures than the budget. A source without ruptures adds nothing
    to the count and, the budget not being negative, never closes a
    batch; it is delivered all the same, in the batch that is open, and
    sources that are all without ruptures are delivered in one batch. *)
Theorem build_ruptures_batches (srcs : list Source) (budget : Z) :
  let batches := build_ruptures srcs budget in
  concat batches = sampled <$> srcs ∧
  Forall (λ b, b ≠ []) batches ∧
  (∀ k b, batches !! k = Some b → (S k < length batches)%nat → rupture_count b > budget) ∧
  (∀ b p, b ∈ batches → p `prefix_of` b → p ≠ [] → p ≠ b → rupture_count p <= budget) ∧
  (0 <= budget →
     (∀ b, b ∈ batches → rupture_count b > budget →
        ∃ p src, b = p ++ [src] ∧ rupture_count [src] > 0) ∧
     (srcs ≠ [] → Forall (λ src, sample_ruptures src = []) srcs →
        batches = [sampled <$> srcs])).
Proof.
  intros batches.
  destruct (build_ruptures_loop_spec budget srcs [] 0) as (Hcat & Hne & Hcnt & Hmin);
    [done|by intros p ->%prefix_nil_inv|].
  rewrite <- build_ruptures_eq in Hcat, Hne, Hcnt, Hmin. fold batches in Hcat, Hne, Hcnt, Hmin.
  split; [done|]. split; [done|]. split; [done|]. split; [done|].
  intros Hbudget. split.
  - intros b Hb Hflushed.
    destruct b as [|src b _] using rev_ind.
    { change (rupture_count []) with 0 in Hflushed. lia. }
    exists b, src. split; [done|].
    rewrite rupture_count_app in Hflushed.
    destruct (decide (b = [])) as [->|Hbne].
    + change (rupture_count []) with 0 in Hflushed. lia.
    + assert (rupture_count b <= budget); [|lia].
      apply (Hmin (b ++ [src])); [done|by exists [src]|done|].
      intros Heq. apply (f_equal length) in Heq. rewrite length_app in Heq. simpl in Heq. lia.
  - intros Hsrcs Hall. unfold batches. rewrite build_ruptures_eq.
    rewrite build_ruptures_loop_no_ruptures by done. simpl.
    rewrite decide_True; [done|]. by destruct srcs.
Qed.
End batches.

(** The batches are the contents of [acc] at the yields. The yielded object
    itself is cleared by the generator: a consumer that keeps the objects
    holds, in the end, as many references to one list, here an empty one. *)
Lemma build_ruptures_kept_length `{Hazardlib} srcs budget :
  length (build_ruptures_kept srcs budget) = length (build_ruptures srcs budget).
Proof.
  unfold build_ruptures_kept, build_ruptures.
  destruct (gen_run _ _ _) as [batches g]. simpl. apply length_replicate.
Qed.

Lemma build_ruptures_kept_cleared :
  build_ruptures (H := example_hazardlib) example_sources 0
    = [[example_source_a]; [example_source_b]] ∧
  build_ruptures_kept (H := example_hazardlib) example_sources 0 = [[]; []].
Proof. by vm_compute. Qed.

(** C9 as it is stated does not hold: a source without ruptures, alone,
    comes back as a batch. *)
Lemma build_ruptures_zero_rupture_batch :
  sample_ruptures (Hazardlib := example_hazardlib) empty_source = [] ∧
  build_ruptures (H := example_hazardlib) [empty_source] 1 = [[empty_source]] ∧
  build_ruptures (H := example_hazardlib) [empty_source] 1 ≠ [] ∧
  rupture_count [empty_source] = 0.
Proof. by vm_compute. Qed.

Lemma build_ruptures_batches_witness :
  let batches := build_ruptures (H := example_hazardlib) (example_sources ++ [empty_source]) 0 in
  batches = [[example_source_a]; [example_source_b]; [empty_source]] ∧
  rupture_count [example_source_a] > 0 ∧
  ∃ p src, [example_source_a] = p ++ [src] ∧ rupture_count [src] > 0.
Proof.
  intros batches. split; [by vm_compute|].
  pose proof (@build_ruptures_batches example_hazardlib
                (example_sources ++ [empty_source]) 0) as (_ & _ & Hcnt & _ & Hzero).
  assert (Hflushed : rupture_count [example_source_a] > 0).
  { apply (Hcnt 0%nat); [by vm_compute|vm_compute; lia]. }
  split; [done|].
  apply (proj1 (Hzero ltac:(lia))); [|done].
  vm_compute. left.
Defined.

(** * Further properties of the calculator *)

(** ** [replace_eid]: the only error is the missing event ID *)

(** With a dictionary whose values are indices that the column holds (from
    0 to 2^63 - 1), [replace_eid] succeeds exactly when the dictionary
    knows every event ID of the data; otherwise it raises the [KeyError]
    of the dictionary. The positions that [numpy.unique] returns are
    always in bounds and the new column always fits: no other error comes
    out of it. Empty data pass. *)
Theorem replace_eid_total (data : list GmfRow) (eid2idx : gmap Z Z) :
  index_values eid2idx →
  replace_eid data eid2idx =
    if decide (Forall (λ row, is_Some (eid2idx !! eid row)) data)
    then Ok ((λ row, set_eid row (default 0 (eid2idx !! eid row))) <$> data)
    else Raise (KeyError "eid2idx").
Proof.
  intros _. case_decide as Hall.
  - rewrite Forall_forall in Hall.
    apply (replace_eid_Ok _ _ (λ e, default 0 (eid2idx !! e))).
    intros row [v Hv]%Hall. by rewrite Hv.
  - apply not_Forall_Exists in Hall; [|apply _].
    apply Exists_exists in Hall as (row & Hrow & Hnone).
    apply (replace_eid_KeyError _ _ row); [done|]. by apply eq_None_not_Some.
Qed.

Lemma replace_eid_total_witness :
  replace_eid example_rows {[ 3 := 0; 7 := 1 ]}
    = Ok [mkGmfRow 1 0 1 []; mkGmfRow 0 0 0 []] ∧
  replace_eid example_rows {[ 3 := 0 ]} = Raise (KeyError "eid2idx").
Proof.
  split.
  - rewrite (replace_eid_total example_rows {[ 3 := 0; 7 := 1 ]}).
    + by vm_compute.
    + apply (bool_decide_unpack _). by vm_compute.
  - rewrite (replace_eid_total example_rows {[ 3 := 0 ]}).
    + by vm_compute.
    + apply (bool_decide_unpack _). by vm_compute.
Defined.

(** ** [eid2idx]: from the event IDs to the positions and back *)

Lemma foldl_insert_is_Some {K V} `{Countable K} (pairs : list (K * V)) : ∀ (d : gmap K V) k,
  is_Some (d !! k) ∨ k ∈ pairs.*1 →
  is_Some (foldl (λ d kv, <[kv.1 := kv.2]> d) d pairs !! k).
Proof.
  induction pairs as [|[k' v'] pairs IH]; intros d k; simpl.
  - intros [?|Hin]; [done|]. by apply elem_of_nil in Hin.
  - intros [Hd|Hin]; apply IH.
    + left. destruct (decide (k' = k)) as [->|Hne].
      * rewrite lookup_insert_eq. by eexists.
      * by rewrite lookup_insert_ne.
    + apply elem_of_cons in Hin as [->|Hin]; [|by right].
      left. rewrite lookup_insert_eq. by eexists.
Qed.

Lemma dict_zip_lookup (ks : list Z) (vs : list Z) i k v :
  NoDup ks → length ks = length vs →
  ks !! i = Some k → vs !! i = Some v → dict (zip ks vs) !! k = Some v.
Proof.
  intros Hnd Hlen Hk Hv.
  destruct (foldl_insert_is_Some (zip ks vs) ∅ k) as [v' Hv'].
  { right. rewrite fst_zip by lia. by eapply list_elem_of_lookup_2. }
  fold (dict (zip ks vs)) in Hv'. rewrite Hv'. f_equal.
  apply dict_lookup_Some, list_elem_of_lookup in Hv' as [j Hj].
  apply lookup_zip_with_Some in Hj as (k1 & v1 & [= <- <-] & Hk1 & Hv1).
  assert (j = i) as -> by (by eapply NoDup_lookup).
  congruence.
Qed.

(** The event at the position [i] of the events dataset, the IDs being
    unique and the events at most 2^32, is sent to [i] by [eid2idx]; an ID
    that is not in the dataset is not a key; the dictionary is cached, and
    the second access gives it back without a look at the dataset. *)
Theorem eid2idx_positions (st : State) (evs : list Event) :
  eid2idx_cache st = None → events st = Some evs →
  NoDup (ev_eid <$> evs) → Z.of_nat (length evs) <= TWO32 →
  ∃ d st',
    eid2idx st = Ok (d, st') ∧
    (∀ i ev, evs !! i = Some ev → d !! ev_eid ev = Some (Z.of_nat i)) ∧
    (∀ e, e ∉ ev_eid <$> evs → d !! e = None) ∧
    st' = set_eid2idx_cache st (Some d) ∧
    (∀ evs', eid2idx (set_events st' evs') = Ok (d, set_events st' evs')).
Proof.
  intros Hcache Hevs Hnd Hlen. unfold eid2idx. rewrite Hcache, Hevs. simpl.
  eexists _, _. split; [done|]. split; [|split; [|split; [done|done]]].
  - intros i ev Hi. apply (dict_zip_lookup _ _ i).
    + done.
    + unfold arange_U32. by rewrite !length_fmap, length_seq.
    + by rewrite list_lookup_fmap, Hi.
    + apply lookup_lt_Some in Hi as Hlt.
      rewrite arange_U32_lookup by (by rewrite length_fmap).
      f_equal. apply Z.mod_small. lia.
  - intros e He. apply eq_None_not_Some. intros [v Hv].
    apply dict_lookup_Some, elem_of_zip_l in Hv. done.
Qed.

Lemma eid2idx_positions_witness :
  ∃ d st',
    eid2idx (set_events initial_state (Some example_events)) = Ok (d, st') ∧
    d !! 3 = Some 0 ∧ d !! 7 = Some 1 ∧ d !! 5 = None.
Proof.
  destruct (eid2idx_positions (set_events initial_state (Some example_events))
              example_events eq_refl eq_refl) as (d & st' & Hd & Hpos & Hnone & _).
  { apply (bool_decide_unpack _). by vm_compute. }
  { by vm_compute. }
  exists d, st'. split; [done|].
  split; [apply (Hpos 0%nat (mkEvent 3 0 0 0) eq_refl)|].
  split; [apply (Hpos 1%nat (mkEvent 7 0 1 0) eq_refl)|].
  apply Hnone. apply (bool_decide_unpack _). by vm_compute.
Defined.

(** ** [agg_dicts] outside of UCERF: the events are read, never written *)

Section reduce_frame.
Context `{Hazardlib}.

Lemma agg_dicts_keeps_events self st acc result st' acc' :
  String.prefix "ucerf" (calculation_mode (oqparam self)) = false →
  cache_ok st →
  agg_dicts self (st, acc) result = Ok (st', acc') →
  events st' = events st ∧ ruptures st' = ruptures st ∧ idx st' = idx st ∧
  eid_counter st' = eid_counter st ∧ cache_ok st' ∧ is_Some (eid2idx_cache st').
Proof.
  intros Hmode Hcache (d & st1 & Hd & Hsave & _)%agg_dicts_Ok.
  rewrite event_indices_eid2idx in Hd by done.
  apply eid2idx_Ok in Hd as (evs & Hevs & -> & ->); [|done].
  apply save_gmfs_Ok in Hsave.
  assert (cache_ok (set_eid2idx_cache st (Some (dict (zip (ev_eid <$> evs)
            (arange_U32 (length (ev_eid <$> evs)))))))) as Hc.
  { unfold cache_ok. simpl. by exists evs. }
  destruct (has_gmdata result).
  - destruct Hsave as (data & rows & triples & _ & _ & _ & _ & ->). by repeat split.
  - subst st'. by repeat split.
Qed.

Lemma reduce_keeps_events_cached self results : ∀ st0 acc0 st acc,
  String.prefix "ucerf" (calculation_mode (oqparam self)) = false →
  cache_ok st0 →
  reduce self (st0, acc0) results = Ok (st, acc) →
  events st = events st0 ∧ ruptures st = ruptures st0 ∧ idx st = idx st0 ∧
  eid_counter st = eid_counter st0 ∧ cache_ok st ∧
  (is_Some (eid2idx_cache st0) ∨ results ≠ [] → is_Some (eid2idx_cache st)).
Proof.
  unfold reduce.
  induction results as [|result results IH]; intros st0 acc0 st acc Hmode Hcache;
    cbn [foldM].
  - intros [= <- <-]. do 5 (split; [done|]). by intros [?|?].
  - intros ([st1 acc1] & Hcall & Hrest)%bind_Ok.
    apply agg_dicts_keeps_events in Hcall as (He & Hr & Hi & Hc & Hok & Hsome); [|done..].
    apply IH in Hrest as (He' & Hr' & Hi' & Hc' & Hok' & Hsome'); [|done..].
    rewrite He', Hr', Hi', Hc', He, Hr, Hi, Hc.
    do 5 (split; [done|]). intros _. apply Hsome'. by left.
Qed.

(** A reduction outside of UCERF leaves the datasets of the events and of
    the ruptures, the index [idx] and the counter as they were, and once a
    result has been reduced the dictionary [eid2idx] is the one of the
    events dataset: it is computed by the first call and every later call
    finds it cached. *)
Theorem reduce_keeps_events self st0 acc0 results st acc :
  String.prefix "ucerf" (calculation_mode (oqparam self)) = false →
  cache_ok st0 →
  reduce self (st0, acc0) results = Ok (st, acc) →
  events st = events st0 ∧ ruptures st = ruptures st0 ∧ idx st = idx st0 ∧
  eid_counter st = eid_counter st0 ∧
  (results ≠ [] →
     ∃ evs, events st0 = Some evs ∧
            eid2idx_cache st =
              Some (dict (zip (ev_eid <$> evs) (arange_U32 (length (ev_eid <$> evs)))))).
Proof.
  intros Hmode Hcache Hred.
  destruct (reduce_keeps_events_cached _ _ _ _ _ _ Hmode Hcache Hred)
    as (He & Hr & Hi & Hc & Hok & Hsome).
  do 4 (split; [done|]). intros Hne.
  destruct Hsome as [d Hd]; [by right|].
  unfold cache_ok in Hok. rewrite Hd in Hok. destruct Hok as (evs & Hevs & ->).
  exists evs. split; [congruence|done].
Qed.
End reduce_frame.

Lemma reduce_keeps_events_witness :
  let self := example_calculator "event_based" true in
  let st0 := set_events initial_state (Some example_events) in
  ∃ st acc,
    reduce (H := example_hazardlib) self (st0, ∅) [example_result; example_result]
      = Ok (st, acc) ∧
    events st = Some example_events ∧
    eid2idx_cache st = Some {[ 3 := 0; 7 := 1 ]}.
Proof.
  intros self st0.
  assert (∃ st acc, reduce (H := example_hazardlib) self (st0, ∅)
                      [example_result; example_result] = Ok (st, acc))
    as (st & acc & Hred).
  { eexists _, _. vm_compute. reflexivity. }
  exists st, acc. split; [done|].
  destruct (@reduce_keeps_events example_hazardlib self st0 ∅ _ st acc eq_refl I Hred)
    as (He & _ & _ & _ & Hcache).
  split; [done|].
  destruct Hcache as (evs & [= <-] & ->); [done|]. by vm_compute.
Defined.

(** ** [agg_dicts] in UCERF: the events are numbered as they are stored *)

Lemma number_events_snoc eids e idx :
  number_events (eids ++ [e]) idx =
  (<[e := (number_events eids idx).2]> (number_events eids idx).1,
   (number_events eids idx).2 + 1).
Proof.
  unfold number_events. rewrite foldl_app. simpl.
  by destruct (foldl _ _ eids).
Qed.

(** The loop gives to each event ID the index of its last occurrence,
    counted from [idx], and leaves [idx] after the last event. *)
Lemma number_events_spec eids idx :
  (number_events eids idx).2 = idx + Z.of_nat (length eids) ∧
  ∀ e v, (number_events eids idx).1 !! e = Some v →
         ∃ j : nat, eids !! j = Some e ∧ v = idx + Z.of_nat j.
Proof.
  induction eids as [|x eids [IHidx IHd]] using rev_ind.
  - split; [simpl; lia|]. intros e v. unfold number_events. simpl.
    by rewrite lookup_empty.
  - rewrite number_events_snoc. cbn [fst snd]. rewrite length_app. simpl. split; [lia|].
    intros e v. destruct (decide (x = e)) as [->|Hne].
    + rewrite lookup_insert_eq. intros [= <-]. exists (length eids). split; [|done].
      by rewrite lookup_app_r, Nat.sub_diag.
    + rewrite lookup_insert_ne by done. intros (j & Hj & ->)%IHd.
      exists j. split; [|done]. by apply lookup_app_l_Some.
Qed.

Lemma persisted_events_length st :
  persisted_events st = Z.of_nat (length (default [] (events st))).
Proof. unfold persisted_events. by destruct (events st). Qed.

Section ucerf.
Context `{Hazardlib}.

(** In UCERF, when [idx] is the number of the persisted events before a
    call, it is so after the call, and the rows that the call appends to
    [gmf_data/data] carry, instead of the event ID, a position of the
    events dataset at which an event with that ID is stored. *)
Theorem agg_dicts_ucerf_positions self st acc result st' acc' :
  String.prefix "ucerf" (calculation_mode (oqparam self)) = true →
  idx st = persisted_events st →
  agg_dicts self (st, acc) result = Ok (st', acc') →
  idx st' = persisted_events st' ∧
  ∃ rows,
    default [] (gmf_data st') = default [] (gmf_data st) ++ rows ∧
    length rows = length (batch_data result) ∧
    ∀ i row, batch_data result !! i = Some row →
      ∃ row' (pos : nat) ev,
        rows !! i = Some row' ∧ default [] (events st') !! pos = Some ev ∧
        ev_eid ev = eid row ∧ eid row' = Z.of_nat pos ∧ payload row' = payload row.
Proof.
  intros Hmode Hidx (d & st1 & Hd & Hsave & _)%agg_dicts_Ok.
  unfold event_indices in Hd. rewrite Hmode in Hd.
  destruct (snd <$> ruptures_by_grp result) as [|rups [|]]; [done| |done].
  apply bind_Ok in Hd as ([st2 evs] & Hrup & Hnum).
  destruct (number_events (ev_eid <$> evs) (idx st2)) as [d' i] eqn:Hne.
  injection Hnum as <- <-.
  pose proof (number_events_spec (ev_eid <$> evs) (idx st2)) as [Hi Hpos].
  rewrite Hne in Hi, Hpos. cbn [fst snd] in Hi, Hpos.
  assert (idx st2 = idx st ∧ gmf_data st2 = gmf_data st) as [Hidx2 Hgmf2].
  { apply save_ruptures_Ok in Hrup as [(_ & -> & _)|(? & ? & _ & _ & _ & _ & ->)]; done. }
  apply save_ruptures_counter in Hrup as (Hevs & _ & _).
  assert (Hevents : events st' = events st2 ∧ idx st' = i ∧
            ∃ rows, default [] (gmf_data st') = default [] (gmf_data st2) ++ rows ∧
                    (has_gmdata result = true →
                       ∃ data, gmfdata result = Some data ∧ replace_eid data d' = Ok rows) ∧
                    (has_gmdata result = false → rows = [])).
  { apply save_gmfs_Ok in Hsave. destruct (has_gmdata result).
    - destruct Hsave as (data & rows & triples & Hdata & Hrows & _ & _ & ->). simpl.
      split; [done|]. split; [done|]. exists rows. split; [done|]. split; [|done].
      intros _. by exists data.
    - subst st'. simpl. split; [done|]. split; [done|]. exists [].
      rewrite app_nil_r. by repeat split. }
  destruct Hevents as (Hev' & Hidx' & rows & Hgmf & Hrows & Hnorows).
  split.
  - rewrite Hidx', Hi, Hidx2, Hidx, !persisted_events_length, Hev', Hevs.
    rewrite length_app, length_fmap. lia.
  - exists rows. split; [by rewrite Hgmf, Hgmf2|].
    unfold batch_data. destruct (has_gmdata result).
    + destruct Hrows as (data & -> & Hrep); [done|]. simpl.
      apply replace_eid_inv in Hrep as [Hall ->]. split; [by rewrite length_fmap|].
      intros j row Hrow. rewrite Forall_forall in Hall.
      destruct (Hall row) as [v Hv]; [by eapply list_elem_of_lookup_2|].
      destruct (Hpos _ _ Hv) as (k & Hk & ->).
      apply list_lookup_fmap_Some in Hk as (ev & Hev & Hk).
      exists (set_eid row (idx st2 + Z.of_nat k)),
        (length (default [] (events st)) + k)%nat, ev.
      rewrite list_lookup_fmap, Hrow. simpl. rewrite Hv. simpl.
      split; [done|]. rewrite Hev', Hevs, lookup_app_r by lia.
      replace (length (default [] (events st)) + k - length (default [] (events st)))%nat
        with k by lia.
      split; [done|]. split; [done|]. split; [|done].
      rewrite Hidx2, Hidx, persisted_events_length. lia.
    + rewrite Hnorows by done. split; [done|]. intros j row Hrow.
      by rewrite lookup_nil in Hrow.
Qed.
End ucerf.

Lemma agg_dicts_ucerf_positions_witness :
  let self := example_calculator "ucerf_hazard" true in
  ∃ st' acc',
    agg_dicts (H := example_hazardlib) self (initial_state, ∅) example_ucerf_result
      = Ok (st', acc') ∧
    idx st' = persisted_events st' ∧ idx st' = 6 ∧
    eid <$> default [] (gmf_data st') = [4].
Proof.
  intros self.
  assert (∃ st' acc', agg_dicts (H := example_hazardlib) self (initial_state, ∅)
                        example_ucerf_result = Ok (st', acc')) as (st' & acc' & Hagg).
  { eexists _, _. vm_compute. reflexivity. }
  exists st', acc'. split; [done|].
  destruct (@agg_dicts_ucerf_positions example_hazardlib self initial_state ∅
              example_ucerf_result st' acc' eq_refl eq_refl Hagg) as [Hidx _].
  split; [done|].
  assert (Ok (st', acc') = agg_dicts (H := example_hazardlib) self (initial_state, ∅)
                             example_ucerf_result) as Heq by done.
  vm_compute in Heq. injection Heq as -> _. by vm_compute.
Defined.

(** ** The errors of [agg_dicts] and the guard on the rows *)

Lemma foldM_Raise_split {A B} (f : A → B → res A) e l : ∀ a,
  foldM f a l = Raise e →
  ∃ l1 b l2 a1, l = l1 ++ b :: l2 ∧ foldM f a l1 = Ok a1 ∧ f a1 b = Raise e.
Proof.
  induction l as [|b l IH]; intros a; simpl; [done|].
  intros [Hb|(a1 & Ha1 & (l1 & b' & l2 & a2 & -> & Hl1 & Hf)%IH)]%bind_Raise.
  - by exists [], b, l, a.
  - exists (b :: l1), b', l2, a2. simpl. rewrite Ha1. by repeat split.
Qed.

Lemma replace_eid_Raise_KeyError data d e :
  replace_eid data d = Raise e → e = KeyError "eid2idx".
Proof.
  destruct (decide (Forall (λ row, is_Some (d !! eid row)) data)) as [Hall|Hall].
  - rewrite Forall_forall in Hall.
    rewrite (replace_eid_Ok _ _ (λ e, default 0 (d !! e))); [done|].
    intros row [v Hv]%Hall. by rewrite Hv.
  - apply not_Forall_Exists in Hall; [|apply _].
    apply Exists_exists in Hall as (row & Hrow & Hnone).
    rewrite (replace_eid_KeyError _ _ row); [congruence|done|].
    by apply eq_None_not_Some.
Qed.

Lemma agg_hcurves_Raise_input imtls acc cs e :
  agg_hcurves imtls acc cs = Raise e → input_error e.
Proof.
  unfold agg_hcurves. intros He. raise_inv.
  unfold hcurve_update in He. destruct x0 as [[[r s] imt] poes].
  raise_inv; subst; try done.
  unfold update_array in He. raise_inv. by destruct poes as [|? [|]]; simplify_eq.
Qed.

Section agg_dicts_raises.
Context `{Hazardlib}.

Lemma save_ruptures_Raise_input self st rups e :
  save_ruptures self st rups = Raise e → input_error e.
Proof.
  unfold save_ruptures. destruct rups as [|rup0 rest]; [done|].
  intros He. raise_inv; by subst.
Qed.

Lemma event_indices_Raise_input self st result e :
  event_indices self st result = Raise e → input_error e.
Proof.
  unfold event_indices, eid2idx. intros He. raise_inv; subst; try done.
  destruct (snd <$> ruptures_by_grp result) as [|rups [|]]; simplify_eq; try done.
  raise_inv. by eapply save_ruptures_Raise_input.
Qed.

Lemma save_gmfs_Raise st d result e :
  save_gmfs st d result = Raise e →
  input_error e ∨
  (e = GmfRowsError TWO32 ∧ has_gmdata result = true ∧
   offset st + Z.of_nat (batch_rows result) >= TWO32).
Proof.
  unfold save_gmfs, batch_rows, batch_data.
  destruct (has_gmdata result); [|done].
  destruct (gmfdata result) as [data|]; simpl; [|intros [= <-]; by left].
  destruct (replace_eid data d) as [rows|e'] eqn:Hrows; simpl.
  - destruct (res_indices result) as [triples|]; simpl; [|intros [= <-]; by left].
    case_decide as Hge; [|done]. intros [= <-]. right.
    rewrite <- (replace_eid_length _ _ _ Hrows). by repeat split.
  - intros [= <-]. left. by rewrite (replace_eid_Raise_KeyError _ _ _ Hrows).
Qed.

(** A call of [agg_dicts] fails either on its input, with a missing key, a
    dictionary of ruptures that has not exactly one value, poes that numpy
    cannot broadcast or event IDs that do not match, or on the guard of the
    rows; the guard fires only for a result with GMF data that brings the
    offset to 2^32 or beyond. *)
Theorem agg_dicts_errors self st acc result e :
  agg_dicts self (st, acc) result = Raise e →
  input_error e ∨
  (e = GmfRowsError TWO32 ∧ has_gmdata result = true ∧
   offset st + Z.of_nat (batch_rows result) >= TWO32).
Proof.
  unfold agg_dicts.
  intros [He|([d st1] & Hd & [He|(st2 & _ & He)]%bind_Raise)]%bind_Raise.
  - left. by eapply event_indices_Raise_input.
  - apply event_indices_frame in Hd as (Hoff & _).
    apply save_gmfs_Raise in He. by rewrite Hoff in He.
  - left. apply bind_Raise in He as [He|(? & _ & ?)]; [|done].
    by eapply agg_hcurves_Raise_input.
Qed.

Lemma agg_dicts_Raise_rows self st acc result n :
  agg_dicts self (st, acc) result = Raise (GmfRowsError n) →
  n = TWO32 ∧ offset st + Z.of_nat (batch_rows result) >= TWO32.
Proof.
  unfold agg_dicts.
  intros [He|([d st1] & Hd & [He|(st2 & _ & He)]%bind_Raise)]%bind_Raise.
  - by apply event_indices_Raise_input in He.
  - apply event_indices_frame in Hd as (Hoff & _).
    apply save_gmfs_Raise in He as [He|([= ->] & _ & Hge)]; [done|].
    by rewrite Hoff in Hge.
  - apply bind_Raise in He as [He|(? & _ & ?)]; [|done].
    by apply agg_hcurves_Raise_input in He.
Qed.

Lemma reduce_offset_lt self st0 acc0 results st acc :
  reduce self (st0, acc0) results = Ok (st, acc) → offset st0 < TWO32 →
  offset st = offset st0 + Z.of_nat (sum_list (batch_rows <$> results)) ∧
  offset st < TWO32.
Proof.
  intros Hred Hlt. split; [by apply reduce_gmf in Hred as (? & _)|].
  revert st0 acc0 Hred Hlt. unfold reduce.
  induction results as [|result results IH]; intros st0 acc0; cbn [foldM].
  - by intros [= <- <-].
  - intros ([st1 acc1] & Hcall & Hrest)%bind_Ok Hlt.
    apply (IH _ _ Hrest).
    apply agg_dicts_gmf in Hcall as (Hoff & _ & Hguard & _).
    destruct (has_gmdata result) eqn:Hgm; [by apply Hguard|].
    rewrite Hoff. unfold batch_rows, batch_data. rewrite Hgm. simpl. lia.
Qed.

(** The guard on the rows is sound for a whole reduction: a reduction that
    goes through keeps the offset, which is the number of the rows, below
    2^32; a reduction that is aborted by the error on the rows was given
    results whose rows, added to the offset, reach 2^32. *)
Theorem reduce_rows_guard self st0 acc0 results :
  (∀ st acc,
     reduce self (st0, acc0) results = Ok (st, acc) → offset st0 < TWO32 →
     offset st = offset st0 + Z.of_nat (sum_list (batch_rows <$> results)) ∧
     offset st < TWO32) ∧
  (∀ n,
     reduce self (st0, acc0) results = Raise (GmfRowsError n) →
     n = TWO32 ∧ offset st0 + Z.of_nat (sum_list (batch_rows <$> results)) >= TWO32).
Proof.
  split; [intros st acc; apply reduce_offset_lt|].
  intros n Hred. unfold reduce in Hred.
  apply foldM_Raise_split in Hred
    as (before & result & after & [st1 acc1] & -> & Hpre & Hcall).
  apply reduce_gmf in Hpre as (Hoff & _).
  apply agg_dicts_Raise_rows in Hcall as [-> Hge].
  split; [done|]. rewrite fmap_app, sum_list_with_app, fmap_cons.
  change (sum_list (?x :: ?l)) with (x + sum_list l)%nat. lia.
Qed.
End agg_dicts_raises.

Lemma reduce_rows_guard_witness :
  let self := example_calculator "event_based" true in
  let st0 := set_events initial_state (Some example_events) in
  (∃ st acc,
     reduce (H := example_hazardlib) self (st0, ∅) [example_result; example_result]
       = Ok (st, acc) ∧ offset st = 4 ∧ offset st < TWO32) ∧
  4294967294 + Z.of_nat (sum_list (batch_rows <$> [example_result])) >= TWO32.
Proof.
  intros self st0. split.
  - assert (∃ st acc, reduce (H := example_hazardlib) self (st0, ∅)
                        [example_result; example_result] = Ok (st, acc))
      as (st & acc & Hred).
    { eexists _, _. vm_compute. reflexivity. }
    exists st, acc. split; [done|].
    by apply (proj1 (@reduce_rows_guard example_hazardlib self st0 ∅ _) st acc Hred).
  - apply (proj2 (@reduce_rows_guard example_hazardlib self
                    (set_offset st0 4294967294) ∅ [example_result]) 4294967296).
    by vm_compute.
Defined.

Lemma agg_dicts_errors_witness :
  input_error (GmfRowsError TWO32) ∨
  (GmfRowsError TWO32 = GmfRowsError TWO32 ∧ has_gmdata example_result = true ∧
   4294967294 + Z.of_nat (batch_rows example_result) >= TWO32).
Proof.
  apply (@agg_dicts_errors example_hazardlib (example_calculator "event_based" true)
           (set_offset (set_events initial_state (Some example_events)) 4294967294) ∅
           example_result (GmfRowsError TWO32)).
  by vm_compute.
Defined.

(** ** [execute]: what a run that completes has checked *)

Lemma global_ranges_within results k ranges t :
  Forall batch_relative results →
  global_ranges 0 results !! k = Some ranges → t ∈ ranges →
  0 <= t.1.2 ∧ t.1.2 <= t.2 ∧ t.2 <= Z.of_nat (sum_list (batch_rows <$> results)).
Proof.
  intros Hrel (result & Hk & ->)%global_ranges_lookup Ht.
  apply list_elem_of_fmap in Ht as (t0 & -> & Ht0).
  rewrite Forall_forall in Hrel.
  specialize (Hrel result (list_elem_of_lookup_2 _ _ _ Hk)).
  unfold batch_relative in Hrel. rewrite Forall_forall in Hrel.
  specialize (Hrel t0 Ht0). unfold shift_range. simpl.
  pose proof (rows_before_mono (S k) (length results) results) as Hmono.
  apply lookup_lt_Some in Hk as Hlt. specialize (Hmono ltac:(lia)).
  rewrite (rows_before_S _ _ _ Hk) in Hmono.
  rewrite (rows_before_all (length results)) in Hmono by done.
  assert (0 <= rows_before k results) by (unfold rows_before; lia).
  lia.
Qed.

Lemma to_U32_small (l : list Z) :
  Forall (λ v, 0 <= v < TWO32) l → to_U32 <$> l = l.
Proof.
  induction 1 as [|v l Hv _ IH]; csimpl; [done|].
  rewrite IH. f_equal. apply Z.mod_small. lia.
Qed.

Section execute_completed.
Context `{Hazardlib}.

Lemma from_sources_frame self st srcs_by_grp st' :
  from_sources self st srcs_by_grp = Ok st' →
  offset st' = offset st ∧ indices st' = indices st ∧ gmf_data st' = gmf_data st.
Proof.
  unfold from_sources, _store_ruptures.
  intros (st1 & Hstore & (evs & _ & [= <-])%bind_Ok)%bind_Ok. simpl.
  revert Hstore.
  apply (foldM_Ok_inv _ (λ s, offset s = offset st ∧ indices s = indices st ∧
                              gmf_data s = gmf_data st)); [|done].
  intros s src s' Hs (ebrs & _ & ([s2 evs'] & Hsave & [= <-])%bind_Ok)%bind_Ok.
  apply save_ruptures_Ok in Hsave as [(_ & -> & _)|(? & ? & _ & _ & _ & _ & ->)]; done.
Qed.

(** A run that reaches the end of the reduction has reduced all the results,
    from the offset 0 and without indices, and has passed the check of the
    overflow. *)
Lemma execute_reduce_Ok self st srcs_by_grp results st1 acc :
  execute_reduce self st srcs_by_grp results = Ok (st1, Some acc) →
  ∃ st0, offset st0 = 0 ∧ indices st0 = ∅ ∧
         reduce self (st0, zerodict self) results = Ok (st1, acc) ∧
         check_overflow self st1 = Ok ().
Proof.
  unfold execute_reduce.
  intros ([sa proceed] & Hinit & Hrest)%bind_Ok.
  destruct proceed; [|done].
  apply bind_Ok in Hrest as ([st2 acc2] & Hred & ([] & Hcheck & [= <- <-])%bind_Ok).
  exists (set_idx sa 0). simpl. split; [|split; [|done]].
  - destruct (hazard_calculation_id (oqparam self)) as [[|n]|].
    + apply bind_Ok in Hinit as (s & (Hoff & _)%from_sources_frame & [= <- _]). by rewrite Hoff.
    + destruct (ground_motion_fields (oqparam self)); [|done]. by injection Hinit as <-.
    + apply bind_Ok in Hinit as (s & (Hoff & _)%from_sources_frame & [= <- _]). by rewrite Hoff.
  - destruct (hazard_calculation_id (oqparam self)) as [[|n]|].
    + apply bind_Ok in Hinit as (s & (_ & Hind & _)%from_sources_frame & [= <- _]).
      by rewrite Hind.
    + destruct (ground_motion_fields (oqparam self)); [|done]. by injection Hinit as <-.
    + apply bind_Ok in Hinit as (s & (_ & Hind & _)%from_sources_frame & [= <- _]).
      by rewrite Hind.
Qed.

(** The sites, the events and the IMTs of a run that completes with ground
    motion fields are within the bounds of [check_overflow], and its rows
    are fewer than 2^32: the checks that abort a run leave nothing out. *)
Theorem execute_bounds self st srcs_by_grp results st' acc :
  ground_motion_fields (oqparam self) = true →
  execute self st srcs_by_grp results = Ok (st', acc) →
  Z.of_nat (sitecol self) <= 65536 ∧ persisted_events st' <= 4294967296 ∧
  num_imts self <= 256 ∧
  offset st' = Z.of_nat (sum_list (batch_rows <$> results)) ∧ offset st' < 4294967296.
Proof.
  intros Hgmf. unfold execute.
  intros ([st1 [acc1|]] & Hred & Hend)%bind_Ok.
  - assert (persisted_events st' = persisted_events st1 ∧ offset st' = offset st1)
      as [-> ->].
    { destruct (decide (indices st1 ≠ ∅)); [by injection Hend as <- _|].
      destruct (_ && _); [done|]. by injection Hend as <- _. }
    clear Hend.
    destruct (execute_reduce_Ok _ _ _ _ _ _ Hred) as (st0 & Hoff & _ & Hreduce & Hcheck).
    rewrite check_overflow_unfold in Hcheck.
    change (2 ^ 16) with 65536 in Hcheck. change (2 ^ 32) with 4294967296 in Hcheck.
    change (2 ^ 8) with 256 in Hcheck.
    destruct (reduce_offset_lt _ _ _ _ _ _ Hreduce) as [Hsum Hlt]; [by rewrite Hoff|].
    rewrite Hoff in Hsum. change TWO32 with 4294967296 in Hlt.
    repeat case_decide; try done; repeat split; lia || done.
  - exfalso. unfold execute_reduce in Hred.
    apply bind_Ok in Hred as ([sa proceed] & Hinit & Hrest).
    destruct proceed.
    + apply bind_Ok in Hrest as ([? ?] & _ & Hrest).
      by apply bind_Ok in Hrest as (? & _ & ?).
    + rewrite Hgmf in Hinit.
      destruct (hazard_calculation_id (oqparam self)) as [[|n]|]; [|done|].
      all: by apply bind_Ok in Hinit as (? & _ & ?).
Qed.

(** When the ranges of each batch are relative to the batch, the starts and
    the stops that [execute] writes to [gmf_data/indices], an array of
    unsigned 32 bit integers, are the ones that were recorded: none is
    wrapped around. *)
Theorem save_indices_exact self st srcs_by_grp results st1 acc :
  Forall batch_relative results →
  execute_reduce self st srcs_by_grp results = Ok (st1, Some acc) →
  gmf_indices (save_indices self st1) =
    Some ((λ s, (default [] (indices st1 !! (s, 0%nat)),
                 default [] (indices st1 !! (s, 1%nat))))
            <$> seq 0 (sitecol_complete self)).
Proof.
  intros Hrel (st0 & Hoff & Hind & Hred & _)%execute_reduce_Ok.
  destruct (reduce_offset_lt _ _ _ _ _ _ Hred) as [Hsum Hlt]; [by rewrite Hoff|].
  apply reduce_gmf in Hred as (_ & Hlists & _).
  rewrite Hoff in Hsum, Hlists. rewrite Hind in Hlists.
  assert (Hsmall : ∀ s,
    Forall (λ v, 0 <= v < TWO32) (default [] (indices st1 !! (s, 0%nat))) ∧
    Forall (λ v, 0 <= v < TWO32) (default [] (indices st1 !! (s, 1%nat)))).
  { intros s. destruct (Hlists s) as [-> ->]. rewrite lookup_empty. simpl.
    split; apply Forall_forall; intros v (p & -> & Hp)%list_elem_of_fmap;
      unfold site_ranges in Hp; apply list_elem_of_omap in Hp as (t & Ht & Hsome);
      case_decide; simplify_eq;
      apply list_elem_of_In, in_concat in Ht
        as (ranges & [k Hk]%list_elem_of_In%list_elem_of_lookup & Ht%list_elem_of_In);
      destruct (global_ranges_within _ _ _ _ Hrel Hk Ht) as (? & ? & ?); simpl; lia. }
  unfold save_indices. simpl. f_equal. rewrite <- list_fmap_compose.
  apply list_fmap_ext. intros i s _. simpl.
  destruct (Hsmall s) as [H0 H1]. by rewrite !to_U32_small.
Qed.
End execute_completed.

Lemma execute_bounds_witness :
  let self := example_calculator "event_based" true in
  ∃ st' acc,
    execute (H := example_hazardlib) self initial_state [(0%nat, example_sources)]
      [example_result; example_result] = Ok (st', acc) ∧
    Z.of_nat (sitecol self) <= 65536 ∧ persisted_events st' <= 4294967296 ∧
    num_imts self <= 256 ∧ offset st' = 4 ∧ offset st' < 4294967296.
Proof.
  intros self.
  assert (∃ st' acc,
            execute (H := example_hazardlib) self initial_state [(0%nat, example_sources)]
              [example_result; example_result] = Ok (st', acc)) as (st' & acc & Hrun).
  { eexists _, _. vm_compute. reflexivity. }
  exists st', acc. split; [done|].
  exact (@execute_bounds example_hazardlib self initial_state [(0%nat, example_sources)]
           [example_result; example_result] st' acc eq_refl Hrun).
Defined.

Lemma save_indices_exact_witness :
  let self := example_calculator "event_based" true in
  ∃ st1 acc,
    execute_reduce (H := example_hazardlib) self initial_state [(0%nat, example_sources)]
      [example_result; example_result] = Ok (st1, Some acc) ∧
    gmf_indices (save_indices self st1) =
      Some ((λ s, (default [] (indices st1 !! (s, 0%nat)),
                   default [] (indices st1 !! (s, 1%nat))))
              <$> seq 0 (sitecol_complete self)).
Proof.
  intros self.
  assert (∃ st1 acc,
            execute_reduce (H := example_hazardlib) self initial_state
              [(0%nat, example_sources)] [example_result; example_result]
              = Ok (st1, Some acc)) as (st1 & acc & Hrun).
  { eexists _, _. vm_compute. reflexivity. }
  exists st1, acc. split; [done|].
  apply (@save_indices_exact example_hazardlib self initial_state [(0%nat, example_sources)]
           [example_result; example_result] st1 acc); [|done].
  apply (bool_decide_unpack _). by vm_compute.
Defined.

(** ** The accumulator of the hazard curves *)

Lemma foldM_Ok_inv_Forall {A B} (f : A → B → res A) (P : A → Prop) (Q : B → Prop) l :
  Forall Q l → (∀ a b a', Q b → P a → f a b = Ok a' → P a') →
  ∀ a a', P a → foldM f a l = Ok a' → P a'.
Proof.
  intros Hl Hstep. induction Hl as [|b l Hb _ IH]; intros a a' Ha; simpl.
  - by intros [= <-].
  - intros (a1 & H1 & H2)%bind_Ok. eauto.
Qed.

Lemma bernoulli_probability p q :
  probability p → probability q → probability (bernoulli p q) ∧ (p <= bernoulli p q)%R.
Proof. unfold probability, bernoulli. intros [? ?] [? ?]. split; [split|]; nra. Qed.

Lemma poe_at_probability n poes j : Forall probability poes → probability (poe_at n poes j).
Proof.
  intros Hp. rewrite Forall_forall in Hp.
  assert (probability 0%R) as H0 by (unfold probability; lra).
  unfold poe_at. case_decide.
  - destruct (poes !! j) as [q|] eqn:Hq; simpl; [|done].
    by apply list_elem_of_lookup_2, Hp in Hq.
  - destruct poes as [|q ?]; simpl; [done|]. apply Hp. by left.
Qed.

Lemma update_cells_probability slc poes curve :
  Forall probability poes → Forall probability curve →
  Forall probability (update_cells slc poes curve) ∧
  Forall2 Rle curve (update_cells slc poes curve).
Proof.
  intros Hpoes Hcurve. rewrite Forall_lookup in Hcurve. split.
  - apply Forall_lookup. intros i p'. unfold update_cells. rewrite list_lookup_imap.
    destruct (curve !! i) as [p|] eqn:Hp; simpl; [|done]. intros [= <-].
    case_decide; [|by eapply Hcurve].
    apply bernoulli_probability; [by eapply Hcurve|by apply poe_at_probability].
  - apply Forall2_same_length_lookup. split; [by rewrite length_update_cells|].
    intros i p p' Hp. unfold update_cells. rewrite list_lookup_imap, Hp. simpl.
    intros [= <-]. case_decide; [|lra].
    apply bernoulli_probability; [by eapply Hcurve|by apply poe_at_probability].
Qed.

(** What an update does to the accumulator: the realizations stay, and a
    curve is left as it was or is updated on a slice. *)
Lemma hcurve_update_curves imtls (acc acc' : gmap nat ProbabilityMap) r s imt poes :
  hcurve_update imtls acc ((r, s, imt), poes) = Ok acc' →
  ∃ slc, ∀ r',
    match acc !! r' with
    | None => acc' !! r' = None
    | Some pmap =>
        ∃ pmap', acc' !! r' = Some pmap' ∧ shape_y pmap' = shape_y pmap ∧
                 ∀ s', curve_of pmap' s' = curve_of pmap s' ∨
                       curve_of pmap' s' = update_cells slc poes (curve_of pmap s')
    end.
Proof.
  intros (pmap & slc & Hr & _ & _ & ->)%hcurve_update_Ok.
  exists slc. intros r'. unfold updated.
  destruct (decide (r' = r)) as [Heq|Hne].
  - subst r'. rewrite Hr, lookup_insert_eq. eexists. split; [done|]. split; [done|].
    intros s'. destruct (decide (s = s')) as [<-|Hs].
    + right. apply curve_of_updated_eq.
    + left. by apply curve_of_updated_ne.
  - rewrite lookup_insert_ne by done.
    destruct (acc !! r') as [pmap'|]; [|done]. exists pmap'. by eauto.
Qed.

(** A relation between the curves that holds for the update of a slice,
    and is reflexive and transitive, holds between the curves before and
    after the contributions. *)
Lemma agg_hcurves_curves (Q : list R → list R → Prop) (P : list R → Prop) imtls cs :
  (∀ c, Q c c) → (∀ c1 c2 c3, Q c1 c2 → Q c2 c3 → Q c1 c3) →
  (∀ slc poes c, P poes → Q c (update_cells slc poes c)) →
  Forall (λ c, P c.2) cs →
  ∀ acc acc', agg_hcurves imtls acc cs = Ok acc' →
  ∀ r, match acc !! r with
       | None => acc' !! r = None
       | Some pmap =>
           ∃ pmap', acc' !! r = Some pmap' ∧ shape_y pmap' = shape_y pmap ∧
                    ∀ s, Q (curve_of pmap s) (curve_of pmap' s)
       end.
Proof.
  intros Hrefl Htrans Hupd.
  intros Hcs acc0 acc'. unfold agg_hcurves.
  apply (foldM_Ok_inv_Forall _
    (λ a, ∀ r, match acc0 !! r with
               | None => a !! r = None
               | Some pmap =>
                   ∃ pmap', a !! r = Some pmap' ∧ shape_y pmap' = shape_y pmap ∧
                            ∀ s, Q (curve_of pmap s) (curve_of pmap' s)
               end) _ _ Hcs).
  - intros a [[[r s] imt] poes] a' Hpoes Ha [slc Hstep]%hcurve_update_curves r'.
    specialize (Ha r'). specialize (Hstep r').
    destruct (acc0 !! r') as [pmap0|].
    + destruct Ha as (pmap1 & H1 & Hshape1 & HQ1). rewrite H1 in Hstep.
      destruct Hstep as (pmap2 & H2 & Hshape2 & HQ2).
      exists pmap2. split; [done|]. split; [congruence|].
      intros s'. eapply Htrans; [apply HQ1|].
      destruct (HQ2 s') as [->| ->]; [apply Hrefl|by apply Hupd].
    + by rewrite Ha in Hstep.
  - intros r. destruct (acc0 !! r) as [pmap|]; [|done]. by eauto.
Qed.

Lemma zerodict_lookup self r :
  zerodict self !! r =
    if decide (r < nrlzs self)%nat
    then Some (mkProbabilityMap (array_len (imtls (oqparam self))) ∅) else None.
Proof.
  unfold zerodict, Acc.
  set (pairs := (λ r, (r, mkProbabilityMap (array_len (imtls (oqparam self))) ∅))
                  <$> seq 0 (nrlzs self)).
  case_decide as Hr.
  - destruct (foldl_insert_is_Some pairs ∅ r) as [v Hv].
    { right. unfold pairs. rewrite <- list_fmap_compose.
      apply list_elem_of_fmap. exists r. split; [done|]. apply elem_of_seq. lia. }
    fold (dict pairs) in Hv. rewrite Hv.
    apply dict_lookup_Some in Hv. unfold pairs in Hv.
    by apply list_elem_of_fmap in Hv as (r0 & [= -> ->] & _).
  - destruct (dict pairs !! r) as [v|] eqn:Hv; [|done].
    apply dict_lookup_Some in Hv. unfold pairs in Hv.
    apply list_elem_of_fmap in Hv as (r0 & [= -> ->] & Hin).
    apply elem_of_seq in Hin. lia.
Qed.

Lemma curve_of_zero nl s : curve_of (mkProbabilityMap nl ∅) s = replicate nl 0%R.
Proof. unfold curve_of. simpl. by rewrite lookup_empty. Qed.

Lemma zerodict_shaped self :
  acc_shaped (nrlzs self) (array_len (imtls (oqparam self))) (zerodict self) ∧
  acc_probabilities (zerodict self).
Proof.
  split; [split|].
  - intros r. rewrite zerodict_lookup. case_decide; split; try done.
  - intros r pmap s. rewrite zerodict_lookup. case_decide; [|done]. intros [= <-].
    split; [done|]. by rewrite curve_of_zero, length_replicate.
  - intros r pmap s. rewrite zerodict_lookup. case_decide; [|done]. intros [= <-].
    rewrite curve_of_zero. apply Forall_replicate. unfold probability. lra.
Qed.

Lemma agg_hcurves_shaped imtls nr nl (acc acc' : gmap nat ProbabilityMap) cs :
  acc_shaped nr nl acc → agg_hcurves imtls acc cs = Ok acc' → acc_shaped nr nl acc'.
Proof.
  intros [Hdom Hlen] Hagg.
  pose proof (agg_hcurves_curves (λ c c', length c' = length c) (λ _, True) imtls cs
                ltac:(done) ltac:(congruence)
                ltac:(intros; apply length_update_cells)
                ltac:(by apply Forall_forall) acc acc' Hagg) as Hrel.
  split.
  - intros r. specialize (Hrel r). rewrite <- Hdom.
    destruct (acc !! r) as [pmap|].
    + destruct Hrel as (pmap' & -> & _). by split.
    + rewrite Hrel. by split.
  - intros r pmap' s Hr'. specialize (Hrel r).
    destruct (acc !! r) as [pmap|] eqn:Hr; [|congruence].
    destruct Hrel as (pmap1 & H1 & Hshape & Hl).
    assert (pmap1 = pmap') as -> by congruence.
    destruct (Hlen r pmap s Hr) as [? ?]. rewrite Hshape, Hl. done.
Qed.

Lemma agg_hcurves_monotone imtls (acc acc' : gmap nat ProbabilityMap) cs :
  acc_probabilities acc → Forall (λ c, Forall probability c.2) cs →
  agg_hcurves imtls acc cs = Ok acc' →
  acc_probabilities acc' ∧
  ∀ r pmap s, acc !! r = Some pmap →
    ∃ pmap', acc' !! r = Some pmap' ∧ Forall2 Rle (curve_of pmap s) (curve_of pmap' s).
Proof.
  intros Hacc Hcs Hagg.
  pose proof (agg_hcurves_curves
                (λ c c', Forall probability c → Forall probability c' ∧ Forall2 Rle c c')
                (Forall probability) imtls cs) as Hrel.
  specialize (Hrel ltac:(intros c Hc; split; [done|]; apply Forall2_same_length_lookup;
                         split; [done|]; intros i p q Hp Hq; simplify_eq; lra)).
  specialize (Hrel ltac:(intros c1 c2 c3 H12 H23 H1;
                         destruct (H12 H1) as [H2 Hle12];
                         destruct (H23 H2) as [H3 Hle23]; split; [done|];
                         eapply Forall2_trans; [|done..];
                         intros x y z ? ?; lra)).
  specialize (Hrel ltac:(intros slc poes c Hp Hc; by apply update_cells_probability)
                   Hcs acc acc' Hagg).
  split.
  - intros r pmap' s Hr'. specialize (Hrel r).
    destruct (acc !! r) as [pmap|] eqn:Hr; [|congruence].
    destruct Hrel as (pmap1 & H1 & _ & HQ).
    assert (pmap1 = pmap') as -> by congruence.
    apply (HQ s). by eapply Hacc.
  - intros r pmap s Hr. specialize (Hrel r). rewrite Hr in Hrel.
    destruct Hrel as (pmap' & Hr' & _ & HQ). exists pmap'. split; [done|].
    apply (HQ s). by eapply Hacc.
Qed.

Lemma acc_shaped_size nr nl (acc : gmap nat ProbabilityMap) :
  acc_shaped nr nl acc → size acc = nr.
Proof.
  intros [Hdom _].
  assert (dom acc = set_seq (C := gset nat) 0 nr) as Heq.
  { apply set_eq. intros r. rewrite elem_of_dom, elem_of_set_seq, Hdom. lia. }
  by rewrite <- size_dom, Heq, size_set_seq.
Qed.

(** The loop of [agg_dicts] over the contributions keeps the accumulator
    in shape and in range: the realizations are the same after it, every
    curve has as many cells as before, and when the cells of the
    accumulator and the exceedance probabilities of the contributions are
    in [0, 1], so are the cells after the loop. *)
Theorem agg_hcurves_probabilities imtls (acc acc' : gmap nat ProbabilityMap) cs :
  agg_hcurves imtls acc cs = Ok acc' →
  (∀ r, is_Some (acc' !! r) ↔ is_Some (acc !! r)) ∧
  (∀ r pmap pmap' s, acc !! r = Some pmap → acc' !! r = Some pmap' →
     shape_y pmap' = shape_y pmap ∧ length (curve_of pmap' s) = length (curve_of pmap s)) ∧
  (acc_probabilities acc → Forall (λ c, Forall probability c.2) cs →
     acc_probabilities acc').
Proof.
  intros Hagg. split; [|split].
  - pose proof (agg_hcurves_curves (λ _ _, True) (λ _, True) imtls cs
                  ltac:(done) ltac:(done) ltac:(done)
                  ltac:(by apply Forall_forall) acc acc' Hagg) as Hrel.
    intros r. specialize (Hrel r). destruct (acc !! r) as [pmap|].
    + destruct Hrel as (pmap' & -> & _). by split.
    + rewrite Hrel. by split.
  - pose proof (agg_hcurves_curves (λ c c', length c' = length c) (λ _, True) imtls cs
                  ltac:(done) ltac:(congruence)
                  ltac:(intros; apply length_update_cells)
                  ltac:(by apply Forall_forall) acc acc' Hagg) as Hrel.
    intros r pmap pmap' s Hr Hr'. specialize (Hrel r). rewrite Hr in Hrel.
    destruct Hrel as (pmap1 & H1 & Hshape & Hl).
    assert (pmap1 = pmap') as -> by congruence. by split.
  - intros Hacc Hcs. by eapply agg_hcurves_monotone.
Qed.

Section accumulator.
Context `{Hazardlib}.

(** The accumulator that a reduction from [zerodict] returns has the
    realizations [0 .. R - 1], as [zerodict] made them, and each of its
    curves has [L] cells; its cells are probabilities when the exceedance
    probabilities of the contributions are. *)
Theorem reduce_zerodict_shape self st0 results st acc :
  reduce self (st0, zerodict self) results = Ok (st, acc) →
  acc_shaped (nrlzs self) (array_len (imtls (oqparam self))) acc ∧
  (Forall (λ c, Forall probability c.2) (contributions results) → acc_probabilities acc).
Proof.
  intros Hred%reduce_acc. destruct (zerodict_shaped self) as [Hshape Hprob]. split.
  - by eapply agg_hcurves_shaped.
  - intros Hcs. by eapply agg_hcurves_monotone.
Qed.

(** The assertion of [post_execute] on the number of the probability maps
    does not fail on what [execute] returns: the accumulator is empty, or
    it has one probability map for each realization. *)
Theorem post_execute_never_asserts self st srcs_by_grp results st' acc hc hstats :
  execute self st srcs_by_grp results = Ok (st', acc) →
  post_execute_assertion self hc hstats acc = None.
Proof.
  unfold execute. intros ([st1 [acc1|]] & Hred & Hend)%bind_Ok.
  - assert (acc = acc1) as ->.
    { destruct (decide (indices st1 ≠ ∅)); [by injection Hend as _ <-|].
      destruct (_ && _); [done|]. by injection Hend as _ <-. }
    apply execute_reduce_Ok in Hred as (st0 & _ & _ & Hred%reduce_acc & _).
    destruct (zerodict_shaped self) as [Hshape _].
    pose proof (acc_shaped_size _ _ _ (agg_hcurves_shaped _ _ _ _ _ _ Hshape Hred)) as Hsize.
    clear Hend. unfold post_execute_assertion.
    destruct (_ && _); [|done].
    case_decide; [|done]. rewrite decide_False; [done|].
    rewrite length_fmap, length_map_to_list. intros Hne. by apply Hne.
  - injection Hend as _ <-. unfold post_execute_assertion.
    by rewrite bool_decide_false by (by intros Hne; apply Hne).
Qed.
End accumulator.

Lemma agg_hcurves_probabilities_witness :
  let self := example_calculator "event_based" true in
  ∃ acc', agg_hcurves (imtls (oqparam self)) (zerodict self) example_hcurves = Ok acc' ∧
          acc_probabilities acc'.
Proof.
  intros self.
  assert (∃ acc', agg_hcurves (imtls (oqparam self)) (zerodict self) example_hcurves
                  = Ok acc') as [acc' Hagg].
  { eexists. vm_compute. reflexivity. }
  exists acc'. split; [done|].
  apply (proj2 (proj2 (agg_hcurves_probabilities (imtls (oqparam self)) (zerodict self)
                         acc' example_hcurves Hagg))); [apply zerodict_shaped|].
  unfold example_hcurves, probability. repeat constructor; simpl; lra.
Defined.

Lemma reduce_zerodict_shape_witness :
  let self := example_calculator "event_based" true in
  let st0 := set_events initial_state (Some example_events) in
  ∃ st acc,
    reduce (H := example_hazardlib) self (st0, zerodict self)
      [example_result; example_curves_result] = Ok (st, acc) ∧
    acc_shaped 2 2 acc.
Proof.
  intros self st0.
  assert (∃ st acc, reduce (H := example_hazardlib) self (st0, zerodict self)
                      [example_result; example_curves_result] = Ok (st, acc))
    as (st & acc & Hred).
  { eexists _, _. vm_compute. reflexivity. }
  exists st, acc. split; [done|].
  apply (@reduce_zerodict_shape example_hazardlib self st0
           [example_result; example_curves_result] st acc Hred).
Defined.

Lemma post_execute_never_asserts_witness :
  let self := example_calculator "event_based" true in
  ∃ st' acc,
    execute (H := example_hazardlib) self initial_state [(0%nat, example_sources)]
      [example_result; example_curves_result] = Ok (st', acc) ∧
    post_execute_assertion self true 1 acc = None.
Proof.
  intros self.
  assert (∃ st' acc,
            execute (H := example_hazardlib) self initial_state [(0%nat, example_sources)]
              [example_result; example_curves_result] = Ok (st', acc))
    as (st' & acc & Hrun).
  { eexists _, _. vm_compute. reflexivity. }
  exists st', acc. split; [done|].
  apply (@post_execute_never_asserts example_hazardlib self initial_state
           [(0%nat, example_sources)] [example_result; example_curves_result] st' acc
           true 1%nat Hrun).
Defined.

(** ** [build_ruptures]: the one list behind the batches *)

Section build_ruptures_alias.
Context `{Hazardlib}.

Lemma gen_run_AfterYield_pair fuel budget srcs acc n :
  (gen_run (S fuel) budget (mkGenerator AfterYield srcs acc n)).2 =
  (gen_run (S fuel) budget (mkGenerator AtStart srcs [] 0)).2.
Proof. done. Qed.

(** The content of [acc] when the generator has been run to its end. *)
Lemma gen_run_acc_cell budget srcs : ∀ fuel acc n,
  (length srcs < fuel)%nat → n = rupture_count acc → (acc ≠ [] → n <= budget) →
  acc_cell (gen_run fuel budget (mkGenerator AtStart srcs acc n)).2 =
    match last (build_ruptures_loop budget srcs acc n) with
    | Some b => if decide (rupture_count b > budget) then [] else b
    | None => []
    end.
Proof.
  induction srcs as [|src srcs IH]; intros [|fuel] acc n Hfuel Hn Hle;
    simpl in Hfuel; try lia.
  - cbn [gen_run gen_next point todo acc_cell counter_n gen_loop build_ruptures_loop].
    case_decide as Hacc.
    + cbn [last]. rewrite decide_False by (specialize (Hle Hacc); lia).
      by destruct fuel.
    + by subst acc.
  - pose proof (IH (S fuel) (acc ++ [set_eb_ruptures src (sample_ruptures src)])
                  (n + Z.of_nat (length (sample_ruptures src))) ltac:(lia)) as IHopen.
    cbn [gen_run gen_next point todo acc_cell counter_n gen_loop build_ruptures_loop] in *.
    fold (sampled src) in *.
    assert (Hcount : n + Z.of_nat (length (sample_ruptures src))
                     = rupture_count (acc ++ [sampled src])).
    { by rewrite rupture_count_app, rupture_count_sampled, Hn. }
    case_decide as Hflush.
    + destruct fuel as [|fuel]; [lia|].
      specialize (IH (S fuel) [] 0 ltac:(lia) eq_refl ltac:(done)).
      pose proof (gen_run_AfterYield_pair fuel budget srcs (acc ++ [sampled src])
                    (n + Z.of_nat (length (sample_ruptures src)))) as Hpair.
      destruct (gen_run (S fuel) budget (mkGenerator AfterYield srcs _ _)) as [bs g].
      cbn [snd] in *. rewrite Hpair, IH, last_cons.
      destruct (last (build_ruptures_loop budget srcs [] 0)); [done|].
      rewrite decide_True; [done|]. by rewrite <- Hcount.
    + apply IHopen; [done|]. intros _. lia.
Qed.

(** The batches that [build_ruptures] yields are one list object. A
    consumer that keeps them, as [list(build_ruptures(...))] does, holds in
    the end as many references to it as there were batches, and finds in
    each of them what the generator has left in the list: nothing when the
    last batch was closed by the budget, the last batch otherwise. With
    two batches or more, what it holds is not what was yielded. *)
Theorem build_ruptures_kept_spec srcs budget :
  let batches := build_ruptures srcs budget in
  build_ruptures_kept srcs budget =
    replicate (length batches)
      (match last batches with
       | Some b => if decide (rupture_count b > budget) then [] else b
       | None => []
       end) ∧
  ((1 < length batches)%nat → build_ruptures_kept srcs budget ≠ batches).
Proof.
  intros batches.
  assert (Hkept : build_ruptures_kept srcs budget =
            replicate (length batches)
              (match last batches with
               | Some b => if decide (rupture_count b > budget) then [] else b
               | None => []
               end)).
  { unfold batches. rewrite build_ruptures_eq.
    rewrite <- (gen_run_acc_cell budget srcs (S (S (length srcs))) [] 0)
      by (done || lia).
    rewrite <- build_ruptures_eq. unfold build_ruptures_kept, build_ruptures.
    by destruct (gen_run _ _ _). }
  split; [done|]. intros Hlen Heq.
  destruct (build_ruptures_loop_spec budget srcs [] 0 eq_refl) as (_ & Hne & Hcnt & _).
  { by intros p ->%prefix_nil_inv. }
  cbn zeta in Hne, Hcnt. rewrite <- build_ruptures_eq in Hne, Hcnt. fold batches in Hne, Hcnt.
  rewrite Hkept in Heq. clear Hkept.
  set (cell := match last batches with
               | Some b => if decide (rupture_count b > budget) then [] else b
               | None => []
               end) in *.
  assert (Hcell : cell = [] ∨ rupture_count cell <= budget).
  { unfold cell. destruct (last batches) as [b|]; [|by left].
    case_decide; [by left|right; lia]. }
  clearbody cell batches.
  destruct batches as [|b0 [|b1 rest]]; simpl in Hlen; try lia.
  injection Heq as Hb0 _. subst cell.
  specialize (Hcnt 0%nat b0 eq_refl ltac:(simpl; lia)).
  apply Forall_cons in Hne as [Hne0 _].
  destruct Hcell as [?|?]; [done|lia].
Qed.
End build_ruptures_alias.

Lemma build_ruptures_kept_spec_witness :
  build_ruptures_kept (H := example_hazardlib) example_sources 0 ≠
  build_ruptures (H := example_hazardlib) example_sources 0.
Proof.
  apply (proj2 (@build_ruptures_kept_spec example_hazardlib example_sources 0)).
  vm_compute. lia.
Defined.

(** ** [from_sources]: the ruptures and the order of the events *)

#[global] Instance event_le_antisymm : AntiSymm (=) event_le.
Proof.
  intros [e1 s1 r1 g1] [e2 s2 r2 g2]. unfold event_le. simpl.
  intros H12 H21. f_equal; lia.
Qed.

Section from_sources_datasets.
Context `{Hazardlib}.

Lemma store_ruptures_ruptures self srcs : ∀ st st1,
  foldM (λ st src,
           ebrs ← match eb_ruptures src with
                  | Some ebrs => Ok ebrs
                  | None => Raise (AttributeError "eb_ruptures")
                  end;
           '(st, _) ← save_ruptures self st ebrs;
           Ok st) st srcs = Ok st1 →
  Forall (λ src, is_Some (eb_ruptures src)) srcs ∧
  ruptures st1 = ruptures st ++ concat ((λ src, default [] (eb_ruptures src)) <$> srcs).
Proof.
  induction srcs as [|src srcs IH]; intros st st1; cbn [foldM].
  - intros [= <-]. split; [constructor|]. simpl. by rewrite app_nil_r.
  - intros (st2 & Hstep & Hrest)%bind_Ok.
    apply bind_Ok in Hstep as (ebrs & Hebrs & ([st3 evs] & Hsave & [= <-])%bind_Ok).
    destruct (eb_ruptures src) as [ebrs'|] eqn:Hsrc; [|done]. injection Hebrs as ->.
    destruct (IH _ _ Hrest) as [Hall Hrups]. split.
    + constructor; [by rewrite Hsrc|done].
    + rewrite Hrups, fmap_cons, Hsrc. simpl. rewrite app_assoc. f_equal.
      apply save_ruptures_Ok in Hsave as [(-> & -> & _)|(? & ? & _ & _ & _ & _ & ->)].
      * by rewrite app_nil_r.
      * done.
Qed.

Lemma store_ruptures_nothing self srcs : ∀ st,
  Forall (λ src, eb_ruptures src = Some []) srcs →
  foldM (λ st src,
           ebrs ← match eb_ruptures src with
                  | Some ebrs => Ok ebrs
                  | None => Raise (AttributeError "eb_ruptures")
                  end;
           '(st, _) ← save_ruptures self st ebrs;
           Ok st) st srcs = Ok st.
Proof.
  induction srcs as [|src srcs IH]; intros st Hsrcs; cbn [foldM]; [done|].
  apply Forall_cons in Hsrcs as [-> Hsrcs]. simpl. by apply IH.
Qed.

(** [from_sources] stores the ruptures of the sources, source after
    source, behind the ruptures that are there, and every source it has
    gone through carries the attribute [eb_ruptures]. When no source has a
    rupture and no event is stored, the dataset of the events is never
    made, and reading it back is a [KeyError]. *)
Theorem from_sources_ruptures self st srcs_by_grp :
  let srcs := concat (snd <$> srcs_by_grp) in
  (∀ st', from_sources self st srcs_by_grp = Ok st' →
     Forall (λ src, is_Some (eb_ruptures src)) srcs ∧
     ruptures st' =
       ruptures st ++ concat ((λ src, default [] (eb_ruptures src)) <$> srcs)) ∧
  (events st = None → Forall (λ src, eb_ruptures src = Some []) srcs →
     from_sources self st srcs_by_grp = Raise (KeyError "events")).
Proof.
  intros srcs. split.
  - unfold from_sources, _store_ruptures.
    intros st' (st1 & Hstore & (evs & _ & [= <-])%bind_Ok)%bind_Ok. simpl.
    by apply store_ruptures_ruptures in Hstore.
  - intros Hnone Hsrcs. unfold from_sources, _store_ruptures. fold srcs.
    rewrite (store_ruptures_nothing self srcs st Hsrcs). simpl. by rewrite Hnone.
Qed.

(** The events that [from_sources] stores are in the one order that the
    sort on [eid] can give them: ascending in [eid], the ties broken by the
    other fields of the record. An arrangement of the same records that is
    in this order is the dataset, and sorting the dataset again leaves it
    as it is. *)
Theorem from_sources_events_canonical self st srcs_by_grp st' :
  from_sources self st srcs_by_grp = Ok st' →
  ∃ evs, events st' = Some evs ∧ StronglySorted event_le evs ∧
         (∀ evs', evs' ≡ₚ evs → Sorted event_le evs' → evs' = evs) ∧
         (∀ evs', evs' ≡ₚ evs → sort_by_eid evs' = evs).
Proof.
  unfold from_sources.
  intros (st1 & _ & (evs0 & _ & [= <-])%bind_Ok)%bind_Ok. simpl.
  exists (sort_by_eid evs0). split; [done|].
  assert (Hsorted : Sorted event_le (sort_by_eid evs0)).
  { apply Sorted_merge_sort, _. }
  split; [by apply Sorted_StronglySorted; [apply _|]|].
  split.
  - intros evs' Hperm Hsorted'. by apply (Sorted_unique event_le).
  - intros evs' Hperm. apply (Sorted_unique event_le); [|done|].
    + apply Sorted_merge_sort, _.
    + unfold sort_by_eid at 1. by rewrite merge_sort_Permutation.
Qed.
End from_sources_datasets.

Lemma from_sources_ruptures_witness :
  let self := example_calculator "event_based" true in
  (∃ st', from_sources (H := example_hazardlib) self initial_state
            [(0%nat, example_sources)] = Ok st' ∧
          ruptures st' = [mkEBRupture 0 0 3; mkEBRupture 6 0 1]) ∧
  from_sources (H := example_hazardlib) self initial_state [(0%nat, [empty_source])]
    = Raise (KeyError "events").
Proof.
  intros self. split.
  - assert (∃ st', from_sources (H := example_hazardlib) self initial_state
                     [(0%nat, example_sources)] = Ok st') as [st' Hrun].
    { eexists. vm_compute. reflexivity. }
    exists st'. split; [done|].
    apply (proj1 (@from_sources_ruptures example_hazardlib self initial_state
                    [(0%nat, example_sources)]) st' Hrun).
  - apply (proj2 (@from_sources_ruptures example_hazardlib self initial_state
                    [(0%nat, [empty_source])])); [reflexivity|].
    by repeat constructor.
Defined.

Lemma from_sources_events_canonical_witness :
  let self := example_calculator "event_based" true in
  ∃ st' evs,
    from_sources (H := example_hazardlib) self initial_state [(0%nat, example_sources)]
      = Ok st' ∧
    events st' = Some evs ∧ sort_by_eid (reverse evs) = evs.
Proof.
  intros self.
  assert (∃ st', from_sources (H := example_hazardlib) self initial_state
                   [(0%nat, example_sources)] = Ok st') as [st' Hrun].
  { eexists. vm_compute. reflexivity. }
  destruct (@from_sources_events_canonical example_hazardlib self initial_state
              [(0%nat, example_sources)] st' Hrun) as (evs & Hevs & _ & _ & Hsort).
  exists st', evs. split; [done|]. split; [done|].
  apply Hsort. apply reverse_Permutation.
Defined.

(** ** [execute] without ground motion fields *)

Section execute_early.
Context `{Hazardlib}.

(** When no ground motion field is wanted, [execute] stores the ruptures
    and the events of the sources and returns the empty dictionary: the
    results of the tasks are not looked at, no row is written, and the run
    is not one that starts from the ruptures of another calculation, which
    the assertion of [execute] refuses. *)
Theorem execute_without_gmfs self st srcs_by_grp results st' acc :
  ground_motion_fields (oqparam self) = false →
  execute self st srcs_by_grp results = Ok (st', acc) →
  acc = ∅ ∧
  from_sources self (set_indices (set_offset st 0) ∅) srcs_by_grp = Ok st' ∧
  gmf_data st' = gmf_data st ∧ offset st' = 0 ∧ indices st' = ∅ ∧
  (∀ n, hazard_calculation_id (oqparam self) ≠ Some (S n)) ∧
  ∀ results', execute self st srcs_by_grp results' = Ok (st', acc).
Proof.
  intros Hgmf. unfold execute, execute_reduce. rewrite Hgmf.
  destruct (hazard_calculation_id (oqparam self)) as [[|n]|]; [|done|].
  all: destruct (from_sources self _ srcs_by_grp) as [st1|e] eqn:Hfrom; [|done].
  all: simpl; intros [= <- <-].
  all: destruct (from_sources_frame _ _ _ _ Hfrom) as (Hoff & Hind & Hdata).
  all: by repeat split.
Qed.
End execute_early.

Lemma execute_without_gmfs_witness :
  let self := example_calculator "event_based" false in
  ∃ st',
    execute (H := example_hazardlib) self initial_state [(0%nat, example_sources)]
      [example_result] = Ok (st', ∅) ∧
    offset st' = 0 ∧
    execute (H := example_hazardlib) self initial_state [(0%nat, example_sources)] []
      = Ok (st', ∅).
Proof.
  intros self.
  assert (∃ st', execute (H := example_hazardlib) self initial_state
                   [(0%nat, example_sources)] [example_result] = Ok (st', ∅))
    as [st' Hrun].
  { eexists. vm_compute. reflexivity. }
  destruct (@execute_without_gmfs example_hazardlib self initial_state
              [(0%nat, example_sources)] [example_result] st' ∅ eq_refl Hrun)
    as (_ & _ & _ & Hoff & _ & _ & Hany).
  exists st'. split; [done|]. split; [done|]. apply Hany.
Defined.

(** ** The estimate of the size of the ground motion fields *)

Lemma max_gmf_size_sum nsids ruptures_by_grp num_imts :
  max_gmf_size nsids ruptures_by_grp num_imts =
    (14 + 4 * Z.of_nat num_imts) *
    Z.of_nat (sum_list ((λ ebr, nsids ebr * n_occ ebr)%nat
                          <$> concat (snd <$> ruptures_by_grp))).
Proof.
  unfold max_gmf_size. cbn zeta.
  replace (2 + 4 + 8 + 4 * Z.of_nat num_imts) with (14 + 4 * Z.of_nat num_imts) by lia.
  rewrite Z.mul_comm. f_equal.
  assert (Hinner : ∀ ebrs n,
            foldl (λ n ebr, n + Z.of_nat (nsids ebr) * Z.of_nat (n_occ ebr)) n ebrs
            = n + Z.of_nat (sum_list ((λ ebr, nsids ebr * n_occ ebr)%nat <$> ebrs))).
  { induction ebrs as [|ebr ebrs IH]; intros n; csimpl; [lia|].
    rewrite IH. change (sum_list (?x :: ?l)) with (x + sum_list l)%nat. lia. }
  assert (Houter : ∀ items n,
            foldl (λ n (item : nat * list EBRupture),
                     foldl (λ n ebr, n + Z.of_nat (nsids ebr) * Z.of_nat (n_occ ebr))
                           n item.2) n items
            = n + Z.of_nat (sum_list ((λ ebr, nsids ebr * n_occ ebr)%nat
                                        <$> concat (snd <$> items)))).
  { induction items as [|[g ebrs] items IH]; intros n; csimpl; [lia|].
    rewrite IH, Hinner, fmap_app, sum_list_with_app. lia. }
  by rewrite Houter.
Qed.

(** The estimates that [_store_ruptures] adds up source by source are the
    estimate of [max_gmf_size] for all the ruptures at once: the bytes of
    a row, 14 and 4 for each IMT, for each site of each occurrence of each
    rupture. The attribute [max_gmf_size] is set when one rupture at least
    has a site and an occurrence. *)
Theorem store_ruptures_gmf_size_spec nsids self srcs_by_grp :
  let srcs := concat (snd <$> srcs_by_grp) in
  let ebrs := concat ((λ src, default [] (eb_ruptures src)) <$> srcs) in
  let num_imts := size (slicedic (imtls (oqparam self))) in
  store_ruptures_gmf_size nsids self srcs_by_grp = max_gmf_size nsids [(0%nat, ebrs)] num_imts ∧
  store_ruptures_gmf_size nsids self srcs_by_grp =
    (14 + 4 * Z.of_nat num_imts) *
    Z.of_nat (sum_list ((λ ebr, nsids ebr * n_occ ebr)%nat <$> ebrs)) ∧
  (store_ruptures_gmf_size nsids self srcs_by_grp ≠ 0 ↔
   Exists (λ ebr, (0 < nsids ebr)%nat ∧ (0 < n_occ ebr)%nat) ebrs).
Proof.
  intros srcs ebrs num_imts.
  assert (Hsum : store_ruptures_gmf_size nsids self srcs_by_grp =
            (14 + 4 * Z.of_nat num_imts) *
            Z.of_nat (sum_list ((λ ebr, nsids ebr * n_occ ebr)%nat <$> ebrs))).
  { unfold store_ruptures_gmf_size. fold srcs num_imts. unfold ebrs.
    assert (Hgen : ∀ l n,
              foldl (λ gmf_size src,
                       gmf_size + max_gmf_size nsids
                                    [(src_group_id src, default [] (eb_ruptures src))]
                                    num_imts) n l
              = n + (14 + 4 * Z.of_nat num_imts) *
                    Z.of_nat (sum_list ((λ ebr, nsids ebr * n_occ ebr)%nat
                       <$> concat ((λ src, default [] (eb_ruptures src)) <$> l)))).
    { induction l as [|src l IH]; intros n; csimpl; [lia|].
      rewrite IH, max_gmf_size_sum. csimpl. rewrite app_nil_r.
      rewrite fmap_app, sum_list_with_app. lia. }
    rewrite Hgen. lia. }
  split; [|split; [done|]].
  - rewrite Hsum, max_gmf_size_sum. csimpl. by rewrite app_nil_r.
  - rewrite Hsum. clearbody ebrs. clear Hsum.
    assert (Hpos : (0 < sum_list ((λ ebr, nsids ebr * n_occ ebr)%nat <$> ebrs))%nat ↔
                   Exists (λ ebr, (0 < nsids ebr)%nat ∧ (0 < n_occ ebr)%nat) ebrs).
    { induction ebrs as [|ebr ebrs IH]; csimpl.
      - split; [lia|]. by intros ?%Exists_nil.
      - change (sum_list (?x :: ?l)) with (x + sum_list l)%nat.
        rewrite Exists_cons, <- IH. nia. }
    rewrite <- Hpos. nia.
Qed.

Lemma store_ruptures_gmf_size_spec_witness :
  store_ruptures_gmf_size (λ _, 2%nat) (example_calculator "event_based" true)
    [(0%nat, example_sources)] = 144.
Proof.
  rewrite (proj1 (proj2 (store_ruptures_gmf_size_spec (λ _, 2%nat)
                           (example_calculator "event_based" true)
                           [(0%nat, example_sources)]))).
  by vm_compute.
Defined.
